(** * Front-matter image injector: a shallow embedding of
      [add_image_formatter.py] and the properties of its specification.

    Python [str] values are sequences of Unicode code points; they are
    modelled as lists of [N].  A file is modelled by its content; the
    document processor maps the content before the call to the returned
    boolean and the content after the call. *)

From Stdlib Require Import String Ascii DecimalString.
From Stdlib Require Import List PeanoNat NArith Bool Lia.
Import ListNotations.

Local Open Scope N_scope.
Local Open Scope list_scope.

(** ** Python strings *)

Definition char := N.
Definition str := list char.

(** A Python string literal (ASCII only in this program). *)
Definition lit (s : string) : str := map N_of_ascii (list_ascii_of_string s).

Definition LF : char := 10.
Definition CR : char := 13.

(** [str.isspace] on one code point: the Unicode white-space characters
    recognised by CPython 3. *)
Definition isspace (c : char) : bool :=
  ((9 <=? c) && (c <=? 13)) || ((28 <=? c) && (c <=? 32))
  || (c =? 133) || (c =? 160) || (c =? 5760)
  || ((8192 <=? c) && (c <=? 8202))
  || (c =? 8232) || (c =? 8233) || (c =? 8239) || (c =? 8287) || (c =? 12288).

Fixpoint lstrip (s : str) : str :=
  match s with
  | [] => []
  | c :: r => if isspace c then lstrip r else s
  end.

Definition rstrip (s : str) : str := rev (lstrip (rev s)).

(** [s.strip()] *)
Definition strip (s : str) : str := rstrip (lstrip s).

(** [s.startswith(p)] *)
Fixpoint startswith (p s : str) : bool :=
  match p, s with
  | [], _ => true
  | _ :: _, [] => false
  | a :: p', b :: s' => (a =? b) && startswith p' s'
  end.

(** [s == t] on strings *)
Fixpoint str_eqb (s t : str) : bool :=
  match s, t with
  | [], [] => true
  | a :: s', b :: t' => (a =? b) && str_eqb s' t'
  | _, _ => false
  end.

(** [s.endswith(p)] *)
Definition endswith (p s : str) : bool := startswith (rev p) (rev s).

(** [p in s] *)
Fixpoint containsb (p s : str) : bool :=
  startswith p s
  || match s with
     | [] => false
     | _ :: r => containsb p r
     end.

(** [c not in s] for one character *)
Definition lacks (c : char) (s : str) : bool := forallb (fun d => negb (d =? c)) s.

(** ** Text-mode file access

    [open(path, 'r', encoding='utf-8')] reads with universal newlines:
    [\r\n] and a lone [\r] both arrive as [\n].  Writing on a POSIX system
    stores the text as it is. *)
Fixpoint universal_newlines (s : str) : str :=
  match s with
  | [] => []
  | c :: r =>
      if c =? CR then
        match r with
        | d :: r' => if d =? LF then LF :: universal_newlines r'
                     else LF :: universal_newlines r
        | [] => [LF]
        end
      else c :: universal_newlines r
  end.

(** [f.readlines()] on decoded text: the lines, each with its terminating
    [\n] (the last one may lack it). *)
Fixpoint readlines (s : str) : list str :=
  match s with
  | [] => []
  | c :: r =>
      if c =? LF then [c] :: readlines r
      else match readlines r with
           | [] => [[c]]
           | l :: ls => (c :: l) :: ls
           end
  end.

(** ** Regular expressions

    The two patterns of [find_first_image] are written with backtracking
    combinators in continuation-passing style: a matcher takes the rest of
    the pattern as continuation and the text at the current position, and
    returns the capture group of the first successful alternative in the
    order in which Python's [re] tries them. *)
Section Regex.
Context {A : Type}.

(** a literal *)
Fixpoint re_lit (p : str) (k : str -> option A) (s : str) : option A :=
  match p with
  | [] => k s
  | a :: p' =>
      match s with
      | b :: s' => if a =? b then re_lit p' k s' else None
      | [] => None
      end
  end.

(** one character of a class *)
Definition re_one (P : char -> bool) (k : str -> option A) (s : str)
  : option A :=
  match s with
  | c :: r => if P c then k r else None
  | [] => None
  end.

(** [X*?] (lazy): the continuation is tried before another character is
    consumed *)
Fixpoint re_lazy_star (P : char -> bool) (k : str -> option A) (s : str)
  : option A :=
  match k s with
  | Some x => Some x
  | None =>
      match s with
      | c :: r => if P c then re_lazy_star P k r else None
      | [] => None
      end
  end.

(** [(X*?)] (lazy, captured) *)
Fixpoint re_lazy_star_group (P : char -> bool) (k : str -> str -> option A)
    (g : str) (s : str) : option A :=
  match k g s with
  | Some x => Some x
  | None =>
      match s with
      | c :: r => if P c then re_lazy_star_group P k (g ++ [c]) r else None
      | [] => None
      end
  end.

(** [X+] (greedy): more characters are consumed before the continuation
    is tried *)
Fixpoint re_plus (P : char -> bool) (k : str -> option A) (s : str)
  : option A :=
  match s with
  | c :: r =>
      if P c then
        match re_plus P k r with
        | Some x => Some x
        | None => k r
        end
      else None
  | [] => None
  end.

(** [(X+)] (greedy, captured) *)
Fixpoint re_plus_group (P : char -> bool) (k : str -> str -> option A)
    (g : str) (s : str) : option A :=
  match s with
  | c :: r =>
      if P c then
        match re_plus_group P k (g ++ [c]) r with
        | Some x => Some x
        | None => k (g ++ [c]) r
        end
      else None
  | [] => None
  end.

(** [re.search]: the match at the leftmost start position *)
Fixpoint re_search (m : str -> option A) (s : str) : option A :=
  match m s with
  | Some x => Some x
  | None =>
      match s with
      | _ :: r => re_search m r
      | [] => None
      end
  end.
End Regex.

(** the class of [.] without [re.DOTALL]: anything but a newline *)
Definition dot (c : char) : bool := negb (c =? LF).
(** the negated class of the tag pattern: anything but the greater-than
    sign (code point 62) *)
Definition not_gt (c : char) : bool := negb (c =? 62).
(** the quote class: a double quote (34) or an apostrophe (39) *)
Definition quote (c : char) : bool := (c =? 34) || (c =? 39).
(** the negated quote class *)
Definition not_quote (c : char) : bool := negb (quote c).

(** The inline pattern at one start position: the literal bang and opening
    bracket, a lazy run of [.], the literal closing bracket and opening
    parenthesis, group 1 as a lazy run of [.], the literal closing
    parenthesis.  The result is group 1. *)
Definition md_img_at : str -> option str :=
  re_lit (lit "![")
    (re_lazy_star dot
       (re_lit (lit "](")
          (re_lazy_star_group dot
             (fun g => re_lit (lit ")") (fun _ => Some g)) []))).

(** The tag pattern at one start position: the literal [<img], a greedy
    non-empty run of characters other than the greater-than sign, then
    ([src_attr]) the literal [src=], a quote, group 1 as a greedy non-empty
    run of characters that are not quotes, a quote.  The result is
    group 1. *)
Definition src_attr : str -> option str :=
  re_lit (lit "src=")
    (re_one quote
       (re_plus_group not_quote
          (fun g => re_one quote (fun _ => Some g)) [])).

Definition html_img_at : str -> option str :=
  re_lit (lit "<img") (re_plus not_gt src_attr).

Definition md_img (content : str) : option str := re_search md_img_at content.
Definition html_img (content : str) : option str :=
  re_search html_img_at content.

(** ** The program *)

Definition DEFAULT_IMAGE : str :=
  lit "/assets/favicon/android-chrome-512x512.png".

Definition find_first_image (content : str) : option str :=
  match md_img content with
  | Some g => Some g
  | None =>
      match html_img content with
      | Some g => Some g
      | None => None
      end
  end.

(** [x or d] for an optional string: [None] and [''] are both false *)
Definition py_or (x : option str) (d : str) : str :=
  match x with
  | Some (c :: r) => c :: r
  | Some [] => d
  | None => d
  end.

(** The [for ... else] loop over [enumerate(lines[1:], 1)]: the index of the
    first line that strips to the marker. *)
Definition is_marker (line : str) : bool := str_eqb (strip line) (lit "---").

Fixpoint find_end_idx (ls : list str) (i : nat) : option nat :=
  match ls with
  | [] => None
  | line :: r => if is_marker line then Some i else find_end_idx r (S i)
  end.

Definition is_image (line : str) : bool :=
  startswith (lit "image:") (strip line).
Definition is_title (line : str) : bool :=
  startswith (lit "title:") (strip line).

(** [f'image: {image_url}\n'] *)
Definition image_line (image_url : str) : str :=
  lit "image: " ++ image_url ++ [LF].

(** One iteration of the loop that builds [new_frontmatter]; the state is
    the list built so far and the flag [image_inserted]. *)
Definition insert_step (image_url : str) (st : list str * bool) (line : str)
  : list str * bool :=
  let '(new_frontmatter, image_inserted) := st in
  let new_frontmatter := new_frontmatter ++ [line] in
  if is_title line && negb image_inserted
  then (new_frontmatter ++ [image_line image_url], true)
  else (new_frontmatter, image_inserted).

Definition new_frontmatter (image_url : str) (frontmatter : list str)
  : list str :=
  fst (fold_left (insert_step image_url) frontmatter ([], false)).

(** The same loop by recursion on the front matter, with the flag as
    argument. *)
Fixpoint insert_after_title (image_url : str) (image_inserted : bool)
    (frontmatter : list str) : list str :=
  match frontmatter with
  | [] => []
  | line :: rest =>
      if is_title line && negb image_inserted
      then line :: image_line image_url
             :: insert_after_title image_url true rest
      else line :: insert_after_title image_url image_inserted rest
  end.

(** The front matter, the closing line and the body of a list of lines;
    [None] where the function returns [False] before it looks at the
    fields. *)
Definition split_frontmatter (lines : list str)
  : option (list str * str * str) :=
  match lines with
  | [] => None
  | first :: rest =>
      if negb (startswith (lit "---") (strip first)) then None
      else
        match find_end_idx rest 1 with
        | None => None
        | Some end_idx =>
            Some (firstn end_idx lines,
                  nth end_idx lines [],
                  concat (skipn (S end_idx) lines))
        end
  end.

(** What the function writes to the file, [None] where it returns [False]
    without writing. *)
Definition rewrite_lines (lines : list str) : option str :=
  match split_frontmatter lines with
  | None => None
  | Some (frontmatter, closing, body) =>
      if existsb is_image frontmatter then None
      else
        let image_url := py_or (find_first_image body) DEFAULT_IMAGE in
        Some (concat (new_frontmatter image_url frontmatter)
                ++ closing ++ [LF] ++ body)
  end.

(** [open(filepath, 'r', encoding='utf-8')] and [f.readlines()] *)
Definition read_lines (file : str) : list str :=
  readlines (universal_newlines file).

(** [add_image_to_frontmatter(filepath)]: from the content of the file to the
    returned value and the content of the file afterwards. *)
Definition add_image_to_frontmatter (file : str) : bool * str :=
  match rewrite_lines (read_lines file) with
  | Some written => (true, written)
  | None => (false, file)
  end.

(** The image address the function resolves for a body. *)
Definition image_url (body : str) : str :=
  py_or (find_first_image body) DEFAULT_IMAGE.

(** The body of a file as the function sees it. *)
Definition body_of (file : str) : option str :=
  match split_frontmatter (read_lines file) with
  | Some (_, _, body) => Some body
  | None => None
  end.

(** ** Scenarios of the specification, by evaluation *)

Definition nl (s : str) : str := s ++ [LF].

Fixpoint unlines (ls : list string) : str :=
  match ls with
  | [] => []
  | l :: r => nl (lit l) ++ unlines r
  end.

(** ** The batch driver

    The directory [_posts] is modelled by its entries, name and content, in
    the order in which the file system enumerates them; the entries are
    regular files.  Opening a file by name reads or replaces the content of
    its entry.  Each call of [print] gives one line of output. *)
Definition store := list (str * str).

Definition POSTS_DIR : str := lit "_posts".

(** [open(path, 'r')]: [None] where the file does not exist *)
Fixpoint lookup (name : str) (fs : store) : option str :=
  match fs with
  | [] => None
  | (n, c) :: r => if str_eqb n name then Some c else lookup name r
  end.

(** [open(path, 'w')] and the writes: the content is replaced, a missing
    file is created *)
Fixpoint update (name content : str) (fs : store) : store :=
  match fs with
  | [] => [(name, content)]
  | (n, c) :: r =>
      if str_eqb n name then (n, content) :: r
      else (n, c) :: update name content r
  end.

(** [add_image_to_frontmatter] on a file of the store; [None] where [open]
    raises. *)
Definition add_image_to_frontmatter_at (fs : store) (filepath : str)
  : option (bool * store) :=
  match lookup filepath fs with
  | None => None
  | Some content =>
      match rewrite_lines (read_lines content) with
      | Some written => Some (true, update filepath written fs)
      | None => Some (false, fs)
      end
  end.

(** [POSTS_DIR.glob('*.md')] on a POSIX system: the names that end in
    [.md], in enumeration order *)
Definition glob_md (fs : store) : list str :=
  filter (endswith (lit ".md")) (map fst fs).

(** [str(mdfile)] *)
Definition path_str (name : str) : str := POSTS_DIR ++ lit "/" ++ name.

(** an integer in an f-string *)
Definition decimal (n : nat) : str :=
  lit (NilEmpty.string_of_uint (Nat.to_uint n)).

Definition updated_line (name : str) : str := lit "Updated: " ++ path_str name.

Definition done_line (changed : nat) : str :=
  lit "Done. " ++ decimal changed ++ lit " files updated.".

(** The loop of [main]; the state is the counter, the lines printed so far
    and the store. *)
Fixpoint main_loop (files : list str) (changed : nat) (out : list str)
    (fs : store) : option (nat * list str * store) :=
  match files with
  | [] => Some (changed, out, fs)
  | mdfile :: rest =>
      match add_image_to_frontmatter_at fs mdfile with
      | None => None
      | Some (true, fs') =>
          main_loop rest (S changed) (out ++ [updated_line mdfile]) fs'
      | Some (false, fs') => main_loop rest changed out fs'
      end
  end.

(** [main()]: the lines printed and the store afterwards *)
Definition main (fs : store) : option (list str * store) :=
  match main_loop (glob_md fs) 0 [] fs with
  | Some (changed, out, fs') => Some (out ++ [done_line changed], fs')
  | None => None
  end.

(** [n] runs of the function on one file, one after the other *)
Fixpoint run (n : nat) (file : str) : str :=
  match n with
  | O => file
  | S m => snd (add_image_to_frontmatter (run m file))
  end.

(** ** Predicates used in the statements *)

(** [contains p s]: [p] occurs in [s] *)
Definition contains (p s : str) : Prop := exists a b, s = a ++ p ++ b.

Definition all (P : char -> bool) (s : str) : Prop :=
  Forall (fun c => P c = true) s.

(** A terminated line: text without a newline, followed by one newline. *)
Definition is_line (l : str) : Prop := exists b, l = b ++ [LF] /\ ~ In LF b.

Definition not_marker (l : str) : Prop := is_marker l = false.

(** The line that is put in when the resolved address is the default. *)
Definition default_line : str :=
  nl (lit "image: /assets/favicon/android-chrome-512x512.png").

(** Whether the front matter of a file holds a title line. *)
Definition has_title (file : str) : bool :=
  match split_frontmatter (read_lines file) with
  | Some (fm, _, _) => existsb is_title fm
  | None => false
  end.

(** Whether the first line of a file strips to something that begins with
    the marker; false for an empty file. *)
Definition opens_with_marker (file : str) : bool :=
  match read_lines file with
  | [] => false
  | first :: _ => startswith (lit "---") (strip first)
  end.

(** [inline_ref content pre alt url post]: the text is
    [pre ![alt](url) post] with [alt] and [url] each on one line, that is,
    the inline pattern can match at the end of [pre] with these groups. *)
Definition inline_ref (content pre alt url post : str) : Prop :=
  content = pre ++ lit "![" ++ alt ++ lit "](" ++ url ++ lit ")" ++ post
  /\ forallb dot alt = true /\ forallb dot url = true.

(** The inline pattern from its closing bracket on. *)
Definition md_close : str -> option str :=
  re_lit (lit "](")
    (re_lazy_star_group dot
       (fun g => re_lit (lit ")") (fun _ => Some g)) []).

(** The names of a list are pairwise different. *)
Fixpoint distinct (names : list str) : bool :=
  match names with
  | [] => true
  | n :: r => negb (existsb (str_eqb n) r) && distinct r
  end.

(** The entries of a store that a run of [main] rewrites. *)
Definition rewritten (e : str * str) : bool :=
  endswith (lit ".md") (fst e) && fst (add_image_to_frontmatter (snd e)).

(** An entry after a run of [main]. *)
Definition entry_after (e : str * str) : str * str :=
  if endswith (lit ".md") (fst e)
  then (fst e, snd (add_image_to_frontmatter (snd e)))
  else e.

(** An entry that a second run of the function leaves alone. *)
Definition settled (e : str * str) : bool :=
  negb (endswith (lit ".md") (fst e))
  || negb (fst (add_image_to_frontmatter (snd e)))
  || has_title (snd e).

(** ** The claims of the specification that the code does not meet,
       as they are written *)

(** C1 as it is written: a second run leaves the file of the first run as
    it is and reports no change. *)
Definition idempotent : Prop :=
  forall file,
    add_image_to_frontmatter (snd (add_image_to_frontmatter file))
    = (false, snd (add_image_to_frontmatter file)).

(** C2 as it is written: a document without a title line is reported as
    unchanged. *)
Definition no_title_unchanged : Prop :=
  forall file fm closing body,
    split_frontmatter (read_lines file) = Some (fm, closing, body) ->
    existsb is_image fm = false ->
    existsb is_title fm = false ->
    add_image_to_frontmatter file = (false, file).

(** C3 as it is written: the file afterwards is the file before with the one
    image line put in somewhere. *)
Definition only_image_line_added (file : str) : Prop :=
  forall fm closing body,
    split_frontmatter (read_lines file) = Some (fm, closing, body) ->
    existsb is_image fm = false ->
    exists before after,
      file = before ++ after
      /\ snd (add_image_to_frontmatter file)
         = before ++ image_line (image_url body) ++ after.

(** C4 as it is written: the body read from the file after the run is the
    body read before. *)
Definition body_kept : Prop :=
  forall file fm closing body,
    split_frontmatter (read_lines file) = Some (fm, closing, body) ->
    existsb is_image fm = false ->
    body_of (snd (add_image_to_frontmatter file)) = Some body.

(** C6 as it is written: in a text [pre ![alt](url) post] with no [![]
    in [pre], no closing bracket in [alt] and no closing parenthesis in
    [url], the address of that first inline reference is returned whatever
    else the text holds. *)
Definition inline_precedence : Prop :=
  forall pre alt url post,
    containsb (lit "![") pre = false ->
    lacks 93 alt = true -> lacks 41 url = true ->
    find_first_image
      (pre ++ lit "![" ++ alt ++ lit "](" ++ url ++ lit ")" ++ post)
    = Some url.


Example scenario1 :
  add_image_to_frontmatter
    (unlines ["---"; "title: Hello"; "---"; "![alt](/img/a.png)"]%string)
  = (true,
     unlines ["---"; "title: Hello"; "image: /img/a.png"; "---"; "";
              "![alt](/img/a.png)"]%string).
Proof. vm_compute. reflexivity. Qed.

Example scenario2 :
  let doc := unlines ["---"; "title: Hello"; "image: /x.png"; "---";
                      "![alt](/img/a.png)"]%string in
  add_image_to_frontmatter doc = (false, doc).
Proof. vm_compute. reflexivity. Qed.

Example scenario3 :
  let doc := unlines ["title: Hello"; "---"; "text"]%string in
  add_image_to_frontmatter doc = (false, doc).
Proof. vm_compute. reflexivity. Qed.

(** The greedy run before [src=] gives characters back from the right, so
    the last [src=] attribute of a tag is the one captured. *)
Example html_last_src :
  find_first_image (lit "<img src='a' data-src='b'> ")
  = Some (lit "b").
Proof. vm_compute. reflexivity. Qed.

(** ** Strings: comparison, prefixes and stripping *)

Lemma str_eqb_eq (s t : str) : str_eqb s t = true <-> s = t.
Proof.
  revert t; induction s as [|a s IH]; intros [|b t]; simpl;
    try (split; [discriminate | congruence]); try tauto.
  rewrite andb_true_iff, N.eqb_eq, IH.
  split; [intros [-> ->]; reflexivity | intros H; inversion H; auto].
Qed.

Lemma startswith_prefix (p s : str) :
  startswith p s = true <-> exists r, s = p ++ r.
Proof.
  revert s; induction p as [|a p IH]; intros s; simpl.
  - split; [exists s; reflexivity | reflexivity].
  - destruct s as [|b s].
    + split; [discriminate | intros [r H]; discriminate].
    + rewrite andb_true_iff, N.eqb_eq, IH.
      split.
      * intros [-> [r ->]]; exists r; reflexivity.
      * intros [r H]; inversion H; subst; eauto.
Qed.

(** A prefix [p] of [x ++ y] either lies within [x] or reaches into [y]. *)
Lemma prefix_app_cases (p x y r : str) :
  x ++ y = p ++ r ->
  (exists w, x = p ++ w) \/ (exists p2, p = x ++ p2 /\ y = p2 ++ r).
Proof.
  revert x; induction p as [|a p IH]; intros x H; simpl in *.
  - left; exists x; reflexivity.
  - destruct x as [|b x]; simpl in *.
    + right; exists (a :: p); auto.
    + inversion H; subst.
      destruct (IH x H2) as [[w ->] | [p2 [-> ->]]].
      * left; exists w; reflexivity.
      * right; exists p2; auto.
Qed.

(** A literal whose first character does not recur in it cannot start inside
    a text that does not contain it and run over into a following copy of
    itself. *)
Lemma no_start_inside (a : char) (p' pre rest u v r : str) (c : char) :
  ~ In a p' ->
  ~ contains (a :: p') pre ->
  pre = u ++ c :: v ->
  (c :: v) ++ (a :: p') ++ rest <> (a :: p') ++ r.
Proof.
  intros Hfresh Hno -> H.
  destruct (prefix_app_cases _ _ _ _ H) as [[w Hw] | [p2 [Hp Hy]]].
  - apply Hno; exists u, w; rewrite Hw; reflexivity.
  - destruct p2 as [|b p2].
    + rewrite app_nil_r in Hp.
      apply Hno; exists u, []; rewrite <- Hp, app_nil_r; reflexivity.
    + simpl in Hy; inversion Hy; subst b.
      simpl in Hp; inversion Hp; subst.
      apply Hfresh; apply in_or_app; right; left; reflexivity.
Qed.

Lemma lstrip_keep (c : char) (w : str) :
  isspace c = false -> lstrip (c :: w) = c :: w.
Proof. intros H; simpl; rewrite H; reflexivity. Qed.

Lemma lstrip_suffix (u : str) (c : char) (w : str) :
  isspace c = false -> exists u', lstrip (u ++ c :: w) = u' ++ c :: w.
Proof.
  intros Hc; induction u as [|d u IH]; simpl.
  - rewrite Hc; exists []; reflexivity.
  - destruct (isspace d); [exact IH | exists (d :: u); reflexivity].
Qed.

(** Stripping keeps a prefix that begins and ends with a character that is
    not white space. *)
Lemma strip_keeps_prefix (a z : char) (m x : str) :
  isspace a = false -> isspace z = false ->
  exists y, strip ((a :: m ++ [z]) ++ x) = (a :: m ++ [z]) ++ y.
Proof.
  intros Ha Hz; unfold strip, rstrip.
  change ((a :: m ++ [z]) ++ x) with (a :: (m ++ [z]) ++ x).
  rewrite (lstrip_keep a _ Ha).
  replace (rev (a :: (m ++ [z]) ++ x)) with (rev x ++ z :: rev (a :: m)).
  - destruct (lstrip_suffix (rev x) z (rev (a :: m)) Hz) as [u' ->].
    exists (rev u').
    rewrite rev_app_distr; simpl.
    rewrite rev_app_distr, rev_involutive; simpl.
    rewrite <- !app_assoc; reflexivity.
  - simpl; rewrite !rev_app_distr; simpl.
    rewrite <- !app_assoc; reflexivity.
Qed.

Lemma strip_app_LF (s : str) : strip (s ++ [LF]) = strip s.
Proof.
  unfold strip.
  assert (H : forall t, rstrip (t ++ [LF]) = rstrip t).
  { intros t; unfold rstrip; rewrite rev_app_distr; reflexivity. }
  induction s as [|c s IH]; [reflexivity|].
  simpl; destruct (isspace c); [exact IH | apply (H (c :: s))].
Qed.

(** ** Reading a text file *)

Lemma universal_newlines_no_CR_aux (s : str) :
  ~ In CR (universal_newlines s)
  /\ forall c, ~ In CR (universal_newlines (c :: s)).
Proof.
  induction s as [|d s [IH1 IH2]].
  - split; [simpl; tauto|].
    intros c; simpl.
    destruct (c =? CR) eqn:E; simpl.
    + intros [H | []]; discriminate H.
    + apply N.eqb_neq in E; intros [H | []]; congruence.
  - split; [apply IH2|].
    intros c.
    change (universal_newlines (c :: d :: s))
      with (if c =? CR
            then if d =? LF then LF :: universal_newlines s
                 else LF :: universal_newlines (d :: s)
            else c :: universal_newlines (d :: s)).
    destruct (c =? CR) eqn:E.
    + destruct (d =? LF); intros [H | H];
        try discriminate H; [apply (IH1 H) | apply (IH2 d H)].
    + apply N.eqb_neq in E; intros [H | H]; [congruence | apply (IH2 d H)].
Qed.

Lemma universal_newlines_no_CR (s : str) : ~ In CR (universal_newlines s).
Proof. apply universal_newlines_no_CR_aux. Qed.

(** Text without carriage returns is read back as it was written. *)
Lemma universal_newlines_id (s : str) :
  ~ In CR s -> universal_newlines s = s.
Proof.
  induction s as [|c s IH]; intros H; [reflexivity|].
  simpl; destruct (c =? CR) eqn:E.
  - apply N.eqb_eq in E; exfalso; apply H; left; congruence.
  - f_equal; apply IH; intros H'; apply H; right; exact H'.
Qed.

Lemma concat_readlines (s : str) : concat (readlines s) = s.
Proof.
  induction s as [|c s IH]; [reflexivity|].
  simpl; destruct (c =? LF); simpl; [rewrite IH; reflexivity|].
  destruct (readlines s) as [|l ls]; simpl in *; rewrite <- IH; reflexivity.
Qed.

Lemma readlines_line_app (l s : str) :
  is_line l -> readlines (l ++ s) = l :: readlines s.
Proof.
  intros [b [-> Hb]]; induction b as [|c b IH]; simpl.
  - reflexivity.
  - destruct (c =? LF) eqn:E.
    + apply N.eqb_eq in E; exfalso; apply Hb; left; congruence.
    + simpl in IH; rewrite IH; [reflexivity|].
      intros H; apply Hb; right; exact H.
Qed.

Lemma readlines_lines_app (ls : list str) (s : str) :
  Forall is_line ls -> readlines (concat ls ++ s) = ls ++ readlines s.
Proof.
  induction 1 as [|l ls Hl _ IH]; simpl; [reflexivity|].
  rewrite <- app_assoc, readlines_line_app, IH by assumption; reflexivity.
Qed.

Lemma readlines_cons_inv (s l : str) (ls : list str) :
  readlines s = l :: ls ->
  ls = readlines (concat ls)
  /\ (is_line l \/ (~ In LF l /\ l <> [] /\ ls = [])).
Proof.
  revert l ls; induction s as [|c s IH]; intros l ls; simpl; [discriminate|].
  destruct (c =? LF) eqn:E.
  - intros H; inversion H; subst; clear H.
    rewrite concat_readlines; split; [reflexivity|].
    left; exists []; apply N.eqb_eq in E; subst c; simpl; auto.
  - apply N.eqb_neq in E.
    destruct (readlines s) as [|l' ls'] eqn:R; intros H; inversion H; subst.
    + split; [reflexivity|]; right; repeat split; try discriminate.
      intros [H' | []]; congruence.
    + destruct (IH l' ls eq_refl) as [H1 [[b [-> Hb]] | [Hn [Hne ->]]]].
      * split; [exact H1|]; left; exists (c :: b); split; [reflexivity|].
        intros [H' | H']; [congruence | exact (Hb H')].
      * split; [reflexivity|]; right; repeat split; try discriminate.
        intros [H' | H']; [congruence | exact (Hn H')].
Qed.

(** Every line before another one is terminated, and the lines after any
    prefix are the lines of their own concatenation. *)
Lemma readlines_prefix_inv (a : list str) :
  forall (s l : str) (ls : list str),
  readlines s = a ++ l :: ls ->
  Forall is_line a
  /\ (is_line l \/ (~ In LF l /\ l <> [] /\ ls = []))
  /\ ls = readlines (concat ls).
Proof.
  induction a as [|x a IH]; intros s l ls H; simpl in H.
  - destruct (readlines_cons_inv _ _ _ H) as [H1 H2]; auto.
  - destruct (readlines_cons_inv _ _ _ H) as [H1 [Hx | [_ [_ Hnil]]]].
    + destruct (IH _ _ _ (eq_sym H1)) as [Ha [Hl Hls]]; auto.
    + destruct a; discriminate Hnil.
Qed.

(** The first line of a text that begins with newline-free characters begins
    with them. *)
Lemma readlines_head (p s : str) :
  p <> [] -> ~ In LF p -> exists l ls, readlines (p ++ s) = (p ++ l) :: ls.
Proof.
  induction p as [|c p IH]; intros Hne Hp; [congruence|].
  assert (Hc : (c =? LF) = false).
  { apply N.eqb_neq; intros ->; apply Hp; left; reflexivity. }
  simpl; rewrite Hc.
  destruct p as [|d p].
  - simpl; destruct (readlines s) as [|l ls];
      [exists [], [] | exists l, ls]; reflexivity.
  - destruct IH as [l [ls ->]]; [discriminate | |exists l, ls; reflexivity].
    intros H; apply Hp; right; exact H.
Qed.

(** ** The regular-expression combinators

    Inversion: what a successful match consumed.  Progress: how a match
    steps over text at which the continuation fails. *)
Section RegexFacts.
Context {A : Type}.
Implicit Types (k : str -> option A) (kg : str -> str -> option A).
Implicit Types (P : char -> bool) (x : A).

Lemma re_lit_app p k s : re_lit p k (p ++ s) = k s.
Proof.
  induction p as [|a p IH]; simpl; [reflexivity|].
  rewrite N.eqb_refl; exact IH.
Qed.

Lemma re_lit_inv p k s x :
  re_lit p k s = Some x -> exists r, s = p ++ r /\ k r = Some x.
Proof.
  revert s; induction p as [|a p IH]; intros s; simpl.
  - intros H; exists s; auto.
  - destruct s as [|b s]; [discriminate|].
    destruct (a =? b) eqn:E; [|discriminate].
    apply N.eqb_eq in E; subst b.
    intros H; destruct (IH _ H) as [r [-> Hr]]; exists r; auto.
Qed.

Lemma re_lit_fail p k s :
  (forall r, s <> p ++ r) -> re_lit p k s = None.
Proof.
  intros H; destruct (re_lit p k s) as [x|] eqn:E; [|reflexivity].
  destruct (re_lit_inv _ _ _ _ E) as [r [-> _]]; exfalso; eapply H; eauto.
Qed.

Lemma re_one_inv P k s x :
  re_one P k s = Some x ->
  exists c r, s = c :: r /\ P c = true /\ k r = Some x.
Proof.
  destruct s as [|c r]; simpl; [discriminate|].
  destruct (P c) eqn:E; [|discriminate].
  intros H; exists c, r; auto.
Qed.

Lemma re_lazy_star_inv P k s x :
  re_lazy_star P k s = Some x ->
  exists a r, s = a ++ r /\ all P a /\ k r = Some x.
Proof.
  induction s as [|c s IH]; simpl.
  - destruct (k []) eqn:E; [|discriminate].
    intros H; inversion H; subst; exists [], []; repeat split; auto.
    constructor.
  - destruct (k (c :: s)) eqn:E.
    + intros H; inversion H; subst.
      exists [], (c :: s); repeat split; auto; constructor.
    + destruct (P c) eqn:Ec; [|discriminate].
      intros H; destruct (IH H) as [a [r [-> [Ha Hk]]]].
      exists (c :: a), r; repeat split; auto; constructor; auto.
Qed.

Lemma re_lazy_star_group_inv P kg s : forall g x,
  re_lazy_star_group P kg g s = Some x ->
  exists a r, s = a ++ r /\ all P a /\ kg (g ++ a) r = Some x.
Proof.
  induction s as [|c s IH]; intros g x; simpl.
  - destruct (kg g []) eqn:E; [|discriminate].
    intros H; inversion H; subst; exists [], []; rewrite (app_nil_r g).
    repeat split; auto; constructor.
  - destruct (kg g (c :: s)) eqn:E.
    + intros H; inversion H; subst.
      exists [], (c :: s); rewrite (app_nil_r g).
      repeat split; auto; constructor.
    + destruct (P c) eqn:Ec; [|discriminate].
      intros H; destruct (IH _ _ H) as [a [r [-> [Ha Hk]]]].
      exists (c :: a), r; rewrite <- app_assoc in Hk.
      repeat split; auto; constructor; auto.
Qed.

Lemma re_plus_inv P k s x :
  re_plus P k s = Some x ->
  exists a r, s = a ++ r /\ a <> [] /\ all P a /\ k r = Some x.
Proof.
  induction s as [|c s IH]; simpl; [discriminate|].
  destruct (P c) eqn:Ec; [|discriminate].
  destruct (re_plus P k s) eqn:E.
  - intros H; inversion H; subst.
    destruct (IH eq_refl) as [a [r [-> [_ [Ha Hk]]]]].
    exists (c :: a), r; repeat split; auto; [discriminate|].
    constructor; auto.
  - intros H; exists [c], s; repeat split; auto; [discriminate|].
    constructor; auto; constructor.
Qed.

Lemma re_plus_group_inv P kg s : forall g x,
  re_plus_group P kg g s = Some x ->
  exists a r, s = a ++ r /\ a <> [] /\ all P a /\ kg (g ++ a) r = Some x.
Proof.
  induction s as [|c s IH]; intros g x; simpl; [discriminate|].
  destruct (P c) eqn:Ec; [|discriminate].
  destruct (re_plus_group P kg (g ++ [c]) s) eqn:E.
  - intros H; inversion H; subst.
    destruct (IH _ _ E) as [a [r [-> [_ [Ha Hk]]]]].
    exists (c :: a), r; rewrite <- app_assoc in Hk.
    repeat split; auto; [discriminate|]; constructor; auto.
  - intros H; exists [c], s; repeat split; auto; [discriminate|].
    constructor; auto; constructor.
Qed.

Lemma re_search_inv (m : str -> option A) s x :
  re_search m s = Some x -> exists pre r, s = pre ++ r /\ m r = Some x.
Proof.
  induction s as [|c s IH]; simpl.
  - destruct (m []) eqn:E; [|discriminate].
    intros H; inversion H; subst; exists [], []; auto.
  - destruct (m (c :: s)) eqn:E.
    + intros H; inversion H; subst; exists [], (c :: s); auto.
    + intros H; destruct (IH H) as [pre [r [-> Hm]]].
      exists (c :: pre), r; auto.
Qed.

(** The search steps over start positions at which the pattern fails. *)
Lemma re_search_skip (m : str -> option A) pre s :
  (forall u c v, pre = u ++ c :: v -> m (c :: v ++ s) = None) ->
  re_search m (pre ++ s) = re_search m s.
Proof.
  induction pre as [|c pre IH]; intros H; [reflexivity|].
  simpl; rewrite (H [] c pre eq_refl).
  apply IH; intros u d v ->; apply (H (c :: u) d v); reflexivity.
Qed.

Lemma re_search_none (m : str -> option A) s :
  (forall u v, s = u ++ v -> m v = None) -> re_search m s = None.
Proof.
  induction s as [|c s IH]; intros H; simpl.
  - rewrite (H [] [] eq_refl); reflexivity.
  - rewrite (H [] (c :: s) eq_refl).
    apply IH; intros u v ->; apply (H (c :: u) v); reflexivity.
Qed.

(** The lazy star steps over characters of its class at which the
    continuation fails. *)
Lemma re_lazy_star_skip P k a s :
  all P a ->
  (forall u c v, a = u ++ c :: v -> k (c :: v ++ s) = None) ->
  re_lazy_star P k (a ++ s) = re_lazy_star P k s.
Proof.
  induction a as [|c a IH]; intros Ha H; [reflexivity|].
  inversion Ha; subst.
  change ((c :: a) ++ s) with (c :: a ++ s).
  cbn [re_lazy_star].
  rewrite (H [] c a eq_refl), H2.
  apply IH; auto; intros u d v ->; apply (H (c :: u) d v); reflexivity.
Qed.

Lemma re_lazy_star_here P k s x :
  k s = Some x -> re_lazy_star P k s = Some x.
Proof. intros H; destruct s; simpl; rewrite H; reflexivity. Qed.

Lemma re_lazy_star_group_skip P kg a s : forall g,
  all P a ->
  (forall u c v, a = u ++ c :: v -> kg (g ++ u) (c :: v ++ s) = None) ->
  re_lazy_star_group P kg g (a ++ s) = re_lazy_star_group P kg (g ++ a) s.
Proof.
  induction a as [|c a IH]; intros g Ha H.
  - rewrite app_nil_r; reflexivity.
  - inversion Ha; subst.
    change ((c :: a) ++ s) with (c :: a ++ s).
    cbn [re_lazy_star_group].
    specialize (H [] c a eq_refl) as H0; rewrite app_nil_r in H0.
    rewrite H0, H2, IH; auto.
    + rewrite <- app_assoc; reflexivity.
    + intros u d v ->; rewrite <- app_assoc.
      apply (H (c :: u) d v); reflexivity.
Qed.

Lemma re_lazy_star_group_here P kg g s x :
  kg g s = Some x -> re_lazy_star_group P kg g s = Some x.
Proof. intros H; destruct s; simpl; rewrite H; reflexivity. Qed.



End RegexFacts.

(** ** The two patterns of [find_first_image] *)

(** What the inline pattern matched: the text around the returned group. *)
Lemma md_img_inv (s u : str) :
  md_img s = Some u ->
  exists pre alt post,
    s = pre ++ lit "![" ++ alt ++ lit "](" ++ u ++ lit ")" ++ post
    /\ all dot alt /\ all dot u.
Proof.
  unfold md_img, md_img_at; intros H.
  destruct (re_search_inv _ _ _ H) as [pre [r1 [-> H1]]].
  destruct (re_lit_inv _ _ _ _ H1) as [r2 [-> H2]].
  destruct (re_lazy_star_inv _ _ _ _ H2) as [alt [r3 [-> [Halt H3]]]].
  destruct (re_lit_inv _ _ _ _ H3) as [r4 [-> H4]].
  destruct (re_lazy_star_group_inv _ _ _ _ _ H4) as [g [r5 [-> [Hg H5]]]].
  destruct (re_lit_inv _ _ _ _ H5) as [post [-> H6]].
  inversion H6; subst u.
  exists pre, alt, post; simpl app at 1; auto.
Qed.

(** What the tag pattern matched: only the lower-case literals [<img] and
    [src=] are accepted. *)
Lemma html_img_inv (s u : str) :
  html_img s = Some u ->
  exists pre attrs q1 q2 post,
    s = pre ++ lit "<img" ++ attrs ++ lit "src=" ++ q1 :: u ++ q2 :: post
    /\ attrs <> [] /\ all not_gt attrs
    /\ quote q1 = true /\ quote q2 = true
    /\ u <> [] /\ all not_quote u.
Proof.
  unfold html_img, html_img_at; intros H.
  destruct (re_search_inv _ _ _ H) as [pre [r1 [-> H1]]].
  destruct (re_lit_inv _ _ _ _ H1) as [r2 [-> H2]].
  destruct (re_plus_inv _ _ _ _ H2) as [attrs [r3 [-> [Hne [Hattrs H3]]]]].
  unfold src_attr in H3.
  destruct (re_lit_inv _ _ _ _ H3) as [r4 [-> H4]].
  destruct (re_one_inv _ _ _ _ H4) as [q1 [r5 [-> [Hq1 H5]]]].
  destruct (re_plus_group_inv _ _ _ _ _ H5) as [g [r6 [-> [Hg [Hgq H6]]]]].
  destruct (re_one_inv _ _ _ _ H6) as [q2 [post [-> [Hq2 H7]]]].
  inversion H7; subst u.
  exists pre, attrs, q1, q2, post; simpl app at 1; auto 10.
Qed.

(** The group returned by either pattern is a piece of the text. *)
Lemma find_first_image_incl (s u : str) :
  find_first_image s = Some u -> incl u s.
Proof.
  unfold find_first_image.
  destruct (md_img s) as [g|] eqn:Emd.
  - intros H; inversion H; subst g.
    destruct (md_img_inv _ _ Emd) as [pre [alt [post [-> _]]]].
    intros c Hc; rewrite !in_app_iff; tauto.
  - destruct (html_img s) as [g|] eqn:Eh; [|discriminate].
    intros H; inversion H; subst g.
    destruct (html_img_inv _ _ Eh) as [pre [at_ [q1 [q2 [post [-> _]]]]]].
    intros c Hc; rewrite !in_app_iff; right; right; right; right.
    right; rewrite in_app_iff; tauto.
Qed.

Lemma re_search_here {A : Type} (m : str -> option A) (s : str) (x : A) :
  m s = Some x -> re_search m s = Some x.
Proof. intros H; destruct s; simpl; rewrite H; reflexivity. Qed.

(** The inline pattern on a text of the shape
    [pre ![alt](url) post]. *)
Lemma md_img_found (pre alt url post : str) :
  ~ contains (lit "![") pre ->
  all dot alt -> ~ contains (lit "](") alt ->
  all dot url -> ~ In 41 url ->
  md_img (pre ++ lit "![" ++ alt ++ lit "](" ++ url ++ lit ")" ++ post)
  = Some url.
Proof.
  intros Hpre Halt Hnb Hurl Hnp.
  unfold md_img.
  rewrite re_search_skip.
  - apply re_search_here; unfold md_img_at.
    rewrite re_lit_app, re_lazy_star_skip; auto.
    + apply re_lazy_star_here.
      rewrite re_lit_app, re_lazy_star_group_skip; auto.
      intros u c v ->; change (lit ")") with [41]; cbn [re_lit].
      destruct (41 =? c) eqn:E; [|reflexivity].
      apply N.eqb_eq in E; subst c.
      exfalso; apply Hnp; apply in_or_app; right; left; reflexivity.
    + intros u c v Hsplit; apply re_lit_fail; intros r Hr.
      change (lit "](") with (93 :: [40]) in *.
      eapply (no_start_inside 93 [40] alt _ u v r c); eauto.
      simpl; intros [H | []]; discriminate H.
  - intros u c v Hsplit; unfold md_img_at; apply re_lit_fail; intros r Hr.
    change (lit "![") with (33 :: [91]) in *.
    eapply (no_start_inside 33 [91] pre _ u v r c); eauto.
    simpl; intros [H | []]; discriminate H.
Qed.


Section HtmlFound.
Variables (q1 q2 : char) (url post : str).
Hypothesis Hq1 : quote q1 = true.
Hypothesis Hq2 : quote q2 = true.
Hypothesis Hurl : all not_quote url.
Hypothesis Hsuffix : forall w, url <> w ++ lit "src=".


Variables (pre attrs : str).
Hypothesis Hpre : ~ contains (lit "<img") pre.
Hypothesis Hattrs_ne : attrs <> [].
Hypothesis Hattrs : all not_gt attrs.
Hypothesis Hurl_ne : url <> [].
Hypothesis Hurl_gt : all not_gt url.

End HtmlFound.

(** Without the lower-case literal [<img] the tag pattern finds nothing. *)
Lemma html_img_none (s : str) : ~ contains (lit "<img") s -> html_img s = None.
Proof.
  intros H; unfold html_img; apply re_search_none; intros u v ->.
  unfold html_img_at; apply re_lit_fail; intros r ->.
  apply H; exists u, r; reflexivity.
Qed.

(** ** The loop that inserts the image line *)

Lemma fold_insert_step (url : str) (fm : list str) :
  forall acc b,
  fold_left (insert_step url) fm (acc, b)
  = (acc ++ insert_after_title url b fm, b || existsb is_title fm).
Proof.
  induction fm as [|line fm IH]; intros acc b; simpl.
  - rewrite app_nil_r, orb_false_r; reflexivity.
  - destruct (is_title line) eqn:Et; destruct b; simpl; rewrite IH;
      rewrite <- ?app_assoc; simpl; try reflexivity.
Qed.

Lemma new_frontmatter_eq (url : str) (fm : list str) :
  new_frontmatter url fm = insert_after_title url false fm.
Proof. unfold new_frontmatter; rewrite fold_insert_step; reflexivity. Qed.

Lemma insert_after_title_done (url : str) (fm : list str) :
  insert_after_title url true fm = fm.
Proof.
  induction fm as [|l fm IH]; simpl; [reflexivity|].
  rewrite andb_false_r, IH; reflexivity.
Qed.

Lemma insert_after_title_none (url : str) (fm : list str) :
  existsb is_title fm = false -> insert_after_title url false fm = fm.
Proof.
  induction fm as [|l fm IH]; simpl; [reflexivity|].
  intros H; apply orb_false_iff in H as [-> H]; simpl.
  rewrite IH; auto.
Qed.

Lemma insert_after_title_first (url : str) (a : list str) (t : str)
    (b : list str) :
  Forall (fun l => is_title l = false) a -> is_title t = true ->
  insert_after_title url false (a ++ t :: b) = a ++ t :: image_line url :: b.
Proof.
  intros Ha Ht; induction Ha as [|l a Hl _ IH]; simpl.
  - rewrite Ht, insert_after_title_done; reflexivity.
  - rewrite Hl, IH; reflexivity.
Qed.

(** A front matter either has no title line or splits at its first one. *)
Lemma first_title_split (fm : list str) :
  existsb is_title fm = false
  \/ exists a t b, fm = a ++ t :: b
       /\ Forall (fun l => is_title l = false) a /\ is_title t = true.
Proof.
  induction fm as [|l fm IH]; [left; reflexivity|].
  destruct (is_title l) eqn:E.
  - right; exists [], l, fm; auto.
  - destruct IH as [IH | [a [t [b [-> [Ha Ht]]]]]].
    + left; simpl; rewrite E, IH; reflexivity.
    + right; exists (l :: a), t, b; auto.
Qed.

(** ** Finding the front matter *)

Lemma find_end_idx_some (ls : list str) : forall i e,
  find_end_idx ls i = Some e ->
  exists a c b, ls = a ++ c :: b /\ Forall not_marker a
    /\ is_marker c = true /\ e = (i + length a)%nat.
Proof.
  induction ls as [|l ls IH]; intros i e; simpl; [discriminate|].
  destruct (is_marker l) eqn:E.
  - intros H; inversion H; subst.
    exists [], l, ls; simpl; repeat split; auto.
  - intros H; destruct (IH _ _ H) as [a [c [b [-> [Ha [Hc ->]]]]]].
    exists (l :: a), c, b; simpl; repeat split; auto; lia.
Qed.

Lemma find_end_idx_app (a : list str) (c : str) (b : list str) : forall i,
  Forall not_marker a -> is_marker c = true ->
  find_end_idx (a ++ c :: b) i = Some (i + length a)%nat.
Proof.
  induction a as [|l a IH]; intros i Ha Hc; simpl.
  - rewrite Hc; f_equal; lia.
  - inversion Ha as [|? ? Hl Ha']; subst; unfold not_marker in Hl.
    rewrite Hl, IH; auto; f_equal; lia.
Qed.

Lemma find_end_idx_skip (a ls : list str) : forall i,
  Forall not_marker a ->
  find_end_idx (a ++ ls) i = find_end_idx ls (i + length a)%nat.
Proof.
  induction a as [|l a IH]; intros i Ha; simpl.
  - f_equal; lia.
  - inversion Ha as [|? ? Hl Ha']; subst; unfold not_marker in Hl.
    rewrite Hl, IH; auto; f_equal; lia.
Qed.

Lemma find_end_idx_ge (ls : list str) : forall i e,
  find_end_idx ls i = Some e -> (i <= e)%nat.
Proof.
  intros i e H; destruct (find_end_idx_some _ _ _ H) as [a [c [b [_ [_ [_ ->]]]]]].
  lia.
Qed.

Lemma slice_middle (a : list str) (c : str) (b : list str) :
  firstn (length a) (a ++ c :: b) = a
  /\ nth (length a) (a ++ c :: b) [] = c
  /\ skipn (S (length a)) (a ++ c :: b) = b.
Proof.
  induction a as [|l a [IH1 [IH2 IH3]]]; simpl; auto.
  rewrite IH1; auto.
Qed.

Lemma firstn_S_middle (a : list str) (x : str) (r : list str) :
  firstn (S (length a)) (a ++ x :: r) = a ++ [x].
Proof.
  induction a as [|y a IH]; [reflexivity|].
  cbn [length app]; rewrite firstn_cons, IH; reflexivity.
Qed.

Lemma slice_frontmatter (first : str) (a : list str) (c : str)
    (b : list str) :
  firstn (1 + length a) (first :: a ++ c :: b) = first :: a
  /\ nth (1 + length a) (first :: a ++ c :: b) [] = c
  /\ skipn (S (1 + length a)) (first :: a ++ c :: b) = b.
Proof.
  destruct (slice_middle a c b) as [H1 [H2 H3]].
  repeat split; [simpl; rewrite H1; reflexivity | exact H2 | exact H3].
Qed.

(** The shape of a document with front matter: an opening line, the lines up
    to the first one that strips to the marker, that closing line, and the
    rest. *)
Lemma split_frontmatter_some (lines fm : list str) (closing body : str) :
  split_frontmatter lines = Some (fm, closing, body) ->
  exists first a rest,
    lines = first :: a ++ closing :: rest /\ fm = first :: a
    /\ startswith (lit "---") (strip first) = true
    /\ Forall not_marker a /\ is_marker closing = true
    /\ body = concat rest.
Proof.
  unfold split_frontmatter.
  destruct lines as [|first rest0]; [discriminate|].
  destruct (startswith (lit "---") (strip first)) eqn:E0; [|discriminate].
  cbn [negb].
  destruct (find_end_idx rest0 1) as [e|] eqn:E; [|discriminate].
  destruct (find_end_idx_some _ _ _ E) as [a [c [b [-> [Ha [Hc ->]]]]]].
  destruct (slice_frontmatter first a c b) as [H1 [H2 H3]].
  rewrite H1, H2, H3.
  intros H; inversion H; subst.
  exists first, a, b; auto 10.
Qed.

Lemma split_frontmatter_shape (first : str) (a : list str) (closing : str)
    (rest : list str) :
  startswith (lit "---") (strip first) = true ->
  Forall not_marker a -> is_marker closing = true ->
  split_frontmatter (first :: a ++ closing :: rest)
  = Some (first :: a, closing, concat rest).
Proof.
  intros H0 Ha Hc; unfold split_frontmatter.
  rewrite H0; cbn [negb].
  rewrite find_end_idx_app by assumption.
  destruct (slice_frontmatter first a closing rest) as [H1 [H2 H3]].
  rewrite H1, H2, H3; reflexivity.
Qed.

Lemma rewrite_lines_some (lines fm : list str) (closing body : str) :
  split_frontmatter lines = Some (fm, closing, body) ->
  existsb is_image fm = false ->
  rewrite_lines lines
  = Some (concat (insert_after_title (image_url body) false fm)
            ++ closing ++ [LF] ++ body).
Proof.
  intros Hs Hi; unfold rewrite_lines; rewrite Hs, Hi, new_frontmatter_eq.
  reflexivity.
Qed.

(** ** Boolean tests and their meaning *)

Lemma containsb_head (p s : str) :
  containsb p s = false -> startswith p s = false.
Proof. destruct s; simpl; intros H; apply orb_false_iff in H; tauto. Qed.

Lemma containsb_false (p s : str) : containsb p s = false -> ~ contains p s.
Proof.
  intros H [a [b ->]]; revert H.
  induction a as [|c a IH]; intros H.
  - apply containsb_head in H.
    assert (startswith p (p ++ b) = true) by (apply startswith_prefix; eauto).
    simpl in H; congruence.
  - simpl in H; apply orb_false_iff in H as [_ H]; exact (IH H).
Qed.

Lemma forallb_all (P : char -> bool) (s : str) :
  forallb P s = true -> all P s.
Proof. intros H; apply Forall_forall; apply forallb_forall; exact H. Qed.

Lemma lacks_not_in (c : char) (s : str) : lacks c s = true -> ~ In c s.
Proof.
  unfold lacks; intros H Hin.
  rewrite forallb_forall in H; specialize (H c Hin).
  rewrite N.eqb_refl in H; discriminate H.
Qed.


(** ** Header Rewriter *)

(** C5.  When the first line that strips to a [title:] prefix is at
    position [k], the rewritten header is the old one with the line
    [image: <URL>] put in at position [k+1]: the lines before and after keep
    their order, and exactly one line is added however many [title:] lines
    follow. *)
Theorem insertion_placement (url : str) (fm : list str) (k : nat)
    (line : str) :
  nth_error fm k = Some line ->
  is_title line = true ->
  (forall j l, (j < k)%nat -> nth_error fm j = Some l -> is_title l = false) ->
  new_frontmatter url fm = firstn (S k) fm ++ image_line url :: skipn (S k) fm
  /\ nth_error (new_frontmatter url fm) (S k) = Some (image_line url)
  /\ firstn (S k) (new_frontmatter url fm)
       ++ skipn (S (S k)) (new_frontmatter url fm) = fm
  /\ length (new_frontmatter url fm) = S (length fm).
Proof.
  intros Hk Ht Hfirst.
  destruct (nth_error_split _ _ Hk) as [a [b [-> Hlen]]].
  assert (Ha : Forall (fun l => is_title l = false) a).
  { apply Forall_forall; intros l Hl.
    destruct (In_nth_error _ _ Hl) as [j Hj].
    apply (Hfirst j l).
    - rewrite <- Hlen; apply nth_error_Some.
      rewrite Hj; discriminate.
    - rewrite nth_error_app1; [exact Hj|].
      apply nth_error_Some; rewrite Hj; discriminate. }
  rewrite new_frontmatter_eq, insert_after_title_first by assumption.
  assert (H1 : forall (x : str) (r : list str),
             firstn (S k) (a ++ x :: r) = a ++ [x]).
  { intros x r; subst k; apply firstn_S_middle. }
  assert (H2 : forall (x : str) (r : list str),
             skipn (S k) (a ++ x :: r) = r).
  { intros x r; subst k; apply slice_middle. }
  repeat split.
  - rewrite H1, H2, <- app_assoc; reflexivity.
  - replace (a ++ line :: image_line url :: b)
      with ((a ++ [line]) ++ image_line url :: b)
      by (rewrite <- app_assoc; reflexivity).
    rewrite nth_error_app2 by (rewrite length_app; simpl; lia).
    replace (S k - length (a ++ [line]))%nat with 0%nat
      by (rewrite length_app; cbn [length]; lia).
    reflexivity.
  - rewrite H1.
    replace (a ++ line :: image_line url :: b)
      with ((a ++ [line]) ++ image_line url :: b)
      by (rewrite <- app_assoc; reflexivity).
    replace (S (S k)) with (S (length (a ++ [line])))
      by (rewrite length_app; simpl; lia).
    destruct (slice_middle (a ++ [line]) (image_line url) b) as [_ [_ ->]].
    rewrite <- app_assoc; reflexivity.
  - rewrite !length_app; simpl; lia.
Qed.

Lemma insertion_placement_witness :
  new_frontmatter (lit "/a.png")
    [nl (lit "---"); nl (lit "layout: post"); nl (lit "title: One");
     nl (lit "title: Two")]
  = [nl (lit "---"); nl (lit "layout: post"); nl (lit "title: One");
     nl (lit "image: /a.png"); nl (lit "title: Two")].
Proof.
  apply (insertion_placement (lit "/a.png")
           [nl (lit "---"); nl (lit "layout: post"); nl (lit "title: One");
            nl (lit "title: Two")] 2 (nl (lit "title: One"))).
  - reflexivity.
  - reflexivity.
  - intros j l Hj.
    destruct j as [|[|j]]; [| |lia]; intros H; inversion H; reflexivity.
Defined.

(** ** Image Reference Extractor *)

(** In a text [pre ![alt](url) post] whose part [pre] holds no [![], with
    [alt] and [url] each on one line, without [](] in [alt] and without [)]
    in [url], the extractor returns [url], whatever else [pre] and [post]
    hold. *)
Lemma inline_reference_first (pre alt url post : str) :
  containsb (lit "![") pre = false ->
  forallb dot alt = true -> containsb (lit "](") alt = false ->
  forallb dot url = true -> lacks 41 url = true ->
  find_first_image
    (pre ++ lit "![" ++ alt ++ lit "](" ++ url ++ lit ")" ++ post)
  = Some url.
Proof.
  intros Hpre Halt Hnb Hurl Hnp; unfold find_first_image.
  rewrite md_img_found; auto using containsb_false, forallb_all, lacks_not_in.
Qed.

Lemma inline_reference_first_witness :
  html_img (lit "<img src='/early.png'> then ![alt](/img/a.png) end")
  = Some (lit "/early.png")
  /\ find_first_image
       (lit "<img src='/early.png'> then ![alt](/img/a.png) end")
     = Some (lit "/img/a.png").
Proof.
  split; [reflexivity|].
  apply (inline_reference_first (lit "<img src='/early.png'> then ")
           (lit "alt") (lit "/img/a.png") (lit " end")); reflexivity.
Defined.




(** ** Document Processor *)

Lemma processed (file : str) (fm : list str) (closing body : str) :
  split_frontmatter (read_lines file) = Some (fm, closing, body) ->
  existsb is_image fm = false ->
  add_image_to_frontmatter file
  = (true, concat (insert_after_title (image_url body) false fm)
             ++ closing ++ [LF] ++ body).
Proof.
  intros Hs Hi; unfold add_image_to_frontmatter.
  rewrite (rewrite_lines_some _ _ _ _ Hs Hi); reflexivity.
Qed.

(** The text as read is the front matter, the closing line and the body. *)
Lemma text_parts (file : str) (fm : list str) (closing body : str) :
  split_frontmatter (read_lines file) = Some (fm, closing, body) ->
  universal_newlines file = concat fm ++ closing ++ body.
Proof.
  intros Hs.
  destruct (split_frontmatter_some _ _ _ _ Hs)
    as [first [a [rest [HL [-> [_ [_ [_ ->]]]]]]]].
  rewrite <- (concat_readlines (universal_newlines file)).
  fold (read_lines file); rewrite HL.
  change (first :: a ++ closing :: rest)
    with ((first :: a) ++ closing :: rest).
  rewrite concat_app; reflexivity.
Qed.

(** C2, counterexample.  A document with front matter, without image and
    without title line: the function rewrites the file and returns [True]. *)
Lemma no_title_unchanged_fails :
  let doc := unlines ["---"; "layout: post"; "---"; "text"]%string in
  add_image_to_frontmatter doc
  = (true, unlines ["---"; "layout: post"; "---"; ""; "text"]%string)
  /\ ~ no_title_unchanged.
Proof.
  split; [vm_compute; reflexivity|].
  intros H.
  specialize (H (unlines ["---"; "layout: post"; "---"; "text"]%string)
                [nl (lit "---"); nl (lit "layout: post")]
                (nl (lit "---")) (nl (lit "text"))
                eq_refl eq_refl eq_refl).
  vm_compute in H; discriminate H.
Qed.

(** C2, amended.  For a document with front matter, no image field and no
    line that strips to a [title:] prefix, the header lines are left as they
    are (no image line is put in), the file is written again with the
    newline after the closing line, and the function returns [True]
    (changed). *)
Theorem no_title_rewritten (file : str) (fm : list str) (closing body : str) :
  split_frontmatter (read_lines file) = Some (fm, closing, body) ->
  existsb is_image fm = false ->
  existsb is_title fm = false ->
  new_frontmatter (image_url body) fm = fm
  /\ add_image_to_frontmatter file
     = (true, concat fm ++ closing ++ [LF] ++ body).
Proof.
  intros Hs Hi Ht.
  rewrite (processed _ _ _ _ Hs Hi), new_frontmatter_eq.
  rewrite insert_after_title_none by assumption; auto.
Qed.

Lemma no_title_rewritten_witness :
  add_image_to_frontmatter
    (unlines ["---"; "layout: post"; "---"; "![a](/b.png)"]%string)
  = (true,
     unlines ["---"; "layout: post"; "---"; ""; "![a](/b.png)"]%string).
Proof.
  apply (no_title_rewritten
           (unlines ["---"; "layout: post"; "---"; "![a](/b.png)"]%string)
           [nl (lit "---"); nl (lit "layout: post")]
           (nl (lit "---")) (nl (lit "![a](/b.png)")));
    reflexivity.
Defined.

(** C3, counterexample.  The file written has one character more than the
    file read and the image line together: the newline after the closing
    line. *)
Lemma only_image_line_added_fails :
  let doc := unlines ["---"; "title: Hello"; "---"; "text"]%string in
  add_image_to_frontmatter doc
  = (true,
     unlines ["---"; "title: Hello";
              "image: /assets/favicon/android-chrome-512x512.png";
              "---"; ""; "text"]%string)
  /\ ~ only_image_line_added doc.
Proof.
  split; [vm_compute; reflexivity|].
  intros H.
  destruct (H [nl (lit "---"); nl (lit "title: Hello")]
              (nl (lit "---")) (nl (lit "text")) eq_refl eq_refl)
    as [before [after [H1 H2]]].
  assert (K : length (snd (add_image_to_frontmatter
                (unlines ["---"; "title: Hello"; "---"; "text"]%string)))
              = (length (unlines ["---"; "title: Hello"; "---";
                                  "text"]%string)
                 + length (image_line (image_url (nl (lit "text"))))
                 + 1)%nat)
    by (vm_compute; reflexivity).
  rewrite H2 in K; rewrite H1 in K.
  rewrite !length_app in K; lia.
Qed.

(** C3, amended.  The file written is the text read, with the line
    [image: <URL>] put in after the first title line of the front matter (if
    there is one) and one newline character put in after the closing line;
    all other characters are kept in place. *)
Theorem rewritten_content (file : str) (fm : list str) (closing body : str) :
  split_frontmatter (read_lines file) = Some (fm, closing, body) ->
  existsb is_image fm = false ->
  universal_newlines file = concat fm ++ closing ++ body
  /\ ((existsb is_title fm = false
       /\ add_image_to_frontmatter file
          = (true, concat fm ++ closing ++ [LF] ++ body))
      \/ (exists a t b,
            fm = a ++ t :: b
            /\ Forall (fun l => is_title l = false) a /\ is_title t = true
            /\ add_image_to_frontmatter file
               = (true, concat (a ++ [t]) ++ image_line (image_url body)
                          ++ concat b ++ closing ++ [LF] ++ body))).
Proof.
  intros Hs Hi; split; [exact (text_parts _ _ _ _ Hs)|].
  rewrite (processed _ _ _ _ Hs Hi).
  destruct (first_title_split fm) as [Ht | [a [t [b [-> [Ha Ht]]]]]].
  - left; rewrite insert_after_title_none by assumption; auto.
  - right; exists a, t, b; repeat split; auto.
    rewrite insert_after_title_first by assumption.
    replace (a ++ t :: image_line (image_url body) :: b)
      with ((a ++ [t]) ++ image_line (image_url body) :: b)
      by (rewrite <- app_assoc; reflexivity).
    rewrite concat_app, concat_cons, <- !app_assoc; reflexivity.
Qed.

Lemma rewritten_content_witness :
  let doc := unlines ["---"; "title: Hello"; "---"; "text"]%string in
  universal_newlines doc
  = concat [nl (lit "---"); nl (lit "title: Hello")]
      ++ nl (lit "---") ++ nl (lit "text").
Proof.
  apply (rewritten_content
           (unlines ["---"; "title: Hello"; "---"; "text"]%string)
           [nl (lit "---"); nl (lit "title: Hello")]
           (nl (lit "---")) (nl (lit "text")));
    reflexivity.
Defined.

Lemma default_inserted (file : str) (fm : list str) (closing body : str) :
  split_frontmatter (read_lines file) = Some (fm, closing, body) ->
  existsb is_image fm = false ->
  existsb is_title fm = true ->
  image_url body = DEFAULT_IMAGE ->
  exists a t b,
    fm = a ++ t :: b
    /\ Forall (fun l => is_title l = false) a /\ is_title t = true
    /\ new_frontmatter (image_url body) fm = a ++ t :: default_line :: b
    /\ add_image_to_frontmatter file
       = (true, concat (a ++ t :: default_line :: b)
                  ++ closing ++ [LF] ++ body).
Proof.
  intros Hs Hi Ht Hu.
  destruct (first_title_split fm) as [Hn | [a [t [b [-> [Ha Ht']]]]]];
    [congruence|].
  exists a, t, b; repeat split; auto.
  - rewrite new_frontmatter_eq, insert_after_title_first, Hu by assumption.
    reflexivity.
  - rewrite (processed _ _ _ _ Hs Hi).
    rewrite insert_after_title_first, Hu by assumption.
    reflexivity.
Qed.

(** C9.  For a document with front matter, no image field and a title line,
    whose body holds no image reference of either kind, the line put in
    after the first title line is
    [image: /assets/favicon/android-chrome-512x512.png]. *)
Theorem fallback_default_image (file : str) (fm : list str)
    (closing body : str) :
  split_frontmatter (read_lines file) = Some (fm, closing, body) ->
  existsb is_image fm = false ->
  existsb is_title fm = true ->
  find_first_image body = None ->
  exists a t b,
    fm = a ++ t :: b
    /\ Forall (fun l => is_title l = false) a /\ is_title t = true
    /\ new_frontmatter (image_url body) fm = a ++ t :: default_line :: b
    /\ add_image_to_frontmatter file
       = (true, concat (a ++ t :: default_line :: b)
                  ++ closing ++ [LF] ++ body).
Proof.
  intros Hs Hi Ht Hnone; apply default_inserted; auto.
  unfold image_url; rewrite Hnone; reflexivity.
Qed.

Lemma fallback_default_image_witness :
  exists a t b,
    [nl (lit "---"); nl (lit "title: Hello"); nl (lit "tags: x")]
    = a ++ t :: b
    /\ Forall (fun l => is_title l = false) a /\ is_title t = true
    /\ new_frontmatter (image_url (nl (lit "no picture here")))
         [nl (lit "---"); nl (lit "title: Hello"); nl (lit "tags: x")]
       = a ++ t :: default_line :: b
    /\ add_image_to_frontmatter
         (unlines ["---"; "title: Hello"; "tags: x"; "---";
                   "no picture here"]%string)
       = (true, concat (a ++ t :: default_line :: b)
                  ++ nl (lit "---") ++ [LF] ++ nl (lit "no picture here")).
Proof.
  apply (fallback_default_image
           (unlines ["---"; "title: Hello"; "tags: x"; "---";
                     "no picture here"]%string)
           [nl (lit "---"); nl (lit "title: Hello"); nl (lit "tags: x")]
           (nl (lit "---")) (nl (lit "no picture here")));
    reflexivity.
Defined.

(** C10.  When the first inline reference of the body has an empty address
    ([![alt]()]), the extractor returns the empty string, the processor
    takes the default in its place, and the line put in after the first
    title line is the default line, not an empty [image:] field. *)
Theorem empty_address_default (file : str) (fm : list str)
    (closing body : str) :
  split_frontmatter (read_lines file) = Some (fm, closing, body) ->
  existsb is_image fm = false ->
  existsb is_title fm = true ->
  md_img body = Some [] ->
  find_first_image body = Some []
  /\ image_url body = DEFAULT_IMAGE
  /\ exists a t b,
       fm = a ++ t :: b
       /\ Forall (fun l => is_title l = false) a /\ is_title t = true
       /\ new_frontmatter (image_url body) fm = a ++ t :: default_line :: b
       /\ add_image_to_frontmatter file
          = (true, concat (a ++ t :: default_line :: b)
                     ++ closing ++ [LF] ++ body).
Proof.
  intros Hs Hi Ht Hmd.
  assert (Hf : find_first_image body = Some [])
    by (unfold find_first_image; rewrite Hmd; reflexivity).
  assert (Hu : image_url body = DEFAULT_IMAGE)
    by (unfold image_url; rewrite Hf; reflexivity).
  repeat split; auto.
  apply default_inserted; auto.
Qed.

Lemma empty_address_default_witness :
  find_first_image (nl (lit "![alt]() and <img src='/x.png'>")) = Some []
  /\ add_image_to_frontmatter
       (unlines ["---"; "title: Hello"; "---";
                 "![alt]() and <img src='/x.png'>"]%string)
     = (true,
        unlines ["---"; "title: Hello";
                 "image: /assets/favicon/android-chrome-512x512.png";
                 "---"; ""; "![alt]() and <img src='/x.png'>"]%string).
Proof.
  destruct (empty_address_default
              (unlines ["---"; "title: Hello"; "---";
                        "![alt]() and <img src='/x.png'>"]%string)
              [nl (lit "---"); nl (lit "title: Hello")]
              (nl (lit "---")) (nl (lit "![alt]() and <img src='/x.png'>"))
              eq_refl eq_refl eq_refl eq_refl) as [H1 _].
  split; [exact H1 | reflexivity].
Defined.

(** ** Header Parser *)

(** A first line that does not strip to something beginning with the marker
    makes the function return [False] without writing. *)
Lemma not_started_untouched (file first : str) (rest : list str) :
  read_lines file = first :: rest ->
  startswith (lit "---") (strip first) = false ->
  add_image_to_frontmatter file = (false, file).
Proof.
  intros HL H0; unfold add_image_to_frontmatter, rewrite_lines.
  rewrite HL; unfold split_frontmatter; rewrite H0; reflexivity.
Qed.

Lemma empty_untouched :
  add_image_to_frontmatter [] = (false, []).
Proof. reflexivity. Qed.

(** C8, the input at which the code departs from the claim.  The first line
    strips to four dashes, which is not the marker; the code tests the
    opening line with [startswith] (the closing line with [==]), takes the
    document and rewrites it. *)
Theorem opening_marker_prefix_accepted :
  let doc := unlines ["----"; "title: T"; "---"; "text"]%string in
  str_eqb (strip (nl (lit "----"))) (lit "---") = false
  /\ read_lines doc
     = [nl (lit "----"); nl (lit "title: T"); nl (lit "---"); nl (lit "text")]
  /\ add_image_to_frontmatter doc
     = (true,
        unlines ["----"; "title: T";
                 "image: /assets/favicon/android-chrome-512x512.png";
                 "---"; ""; "text"]%string).
Proof. repeat split; vm_compute; reflexivity. Qed.

(** ** Reading back what was written *)

Lemma marker_not_title (s : str) :
  startswith (lit "---") s = true -> startswith (lit "title:") s = false.
Proof.
  destruct s as [|c s]; [discriminate|].
  change (lit "---") with (45 :: [45; 45]).
  change (lit "title:") with (116 :: [105; 116; 108; 101; 58]).
  cbn [startswith]; intros H.
  apply andb_true_iff in H as [H _]; apply N.eqb_eq in H; subst c.
  reflexivity.
Qed.

(** A line that begins with [image: ] is an image field and not a marker,
    whatever follows. *)
Lemma image_prefix_line (x : str) :
  is_image (lit "image: " ++ x) = true
  /\ is_marker (lit "image: " ++ x) = false.
Proof.
  destruct (strip_keeps_prefix 105 58 (lit "mage") (32 :: x) eq_refl eq_refl)
    as [y Hy].
  change ((105 :: lit "mage" ++ [58]) ++ 32 :: x)
    with (lit "image: " ++ x) in Hy.
  unfold is_image, is_marker; rewrite Hy; split.
  - apply startswith_prefix; exists y; reflexivity.
  - reflexivity.
Qed.

Lemma in_insert_after_title (c : char) (url : str) (fm : list str) :
  forall b,
  In c (concat (insert_after_title url b fm)) ->
  In c (concat fm) \/ In c (image_line url).
Proof.
  induction fm as [|l fm IH]; intros b; [simpl; tauto|].
  cbn [insert_after_title].
  destruct (is_title l && negb b); rewrite !concat_cons, !in_app_iff.
  - intros [H | [H | H]]; auto; destruct (IH _ H); auto.
  - intros [H | H]; auto; destruct (IH _ H); auto.
Qed.

Lemma in_image_url (c : char) (body : str) :
  In c (image_url body) -> In c body \/ In c DEFAULT_IMAGE.
Proof.
  unfold image_url.
  destruct (find_first_image body) as [[|d u]|] eqn:E; simpl py_or; auto.
  intros H; left; exact (find_first_image_incl _ _ E c H).
Qed.

Lemma in_image_line (c : char) (body : str) :
  In c (image_line (image_url body)) ->
  In c body \/ In c (lit "image: " ++ DEFAULT_IMAGE ++ [LF]).
Proof.
  unfold image_line; rewrite !in_app_iff.
  intros [H | [H | H]]; auto.
  destruct (in_image_url _ _ H); auto.
Qed.

(** What the lines of a file with front matter look like. *)
Lemma front_lines (file : str) (fm : list str) (closing body : str) :
  split_frontmatter (read_lines file) = Some (fm, closing, body) ->
  exists first a rest,
    fm = first :: a /\ body = concat rest
    /\ universal_newlines file = concat fm ++ closing ++ body
    /\ startswith (lit "---") (strip first) = true
    /\ Forall not_marker a /\ is_marker closing = true
    /\ Forall is_line (first :: a)
    /\ (is_line closing \/ (~ In LF closing /\ closing <> [] /\ rest = []))
    /\ rest = readlines (concat rest).
Proof.
  intros Hs.
  pose proof (text_parts _ _ _ _ Hs) as Ht.
  destruct (split_frontmatter_some _ _ _ _ Hs)
    as [first [a [rest [HL [-> [H0 [Ha [Hc ->]]]]]]]].
  change (first :: a ++ closing :: rest)
    with ((first :: a) ++ closing :: rest) in HL.
  destruct (readlines_prefix_inv _ _ _ _ HL) as [H1 [H2 H3]].
  exists first, a, rest; auto 10.
Qed.

(** The text the function writes holds no carriage return. *)
Lemma written_no_CR (file : str) (fm : list str) (closing body : str) :
  split_frontmatter (read_lines file) = Some (fm, closing, body) ->
  ~ In CR (concat (insert_after_title (image_url body) false fm)
             ++ closing ++ [LF] ++ body).
Proof.
  intros Hs.
  pose proof (universal_newlines_no_CR file) as Hno.
  rewrite (text_parts _ _ _ _ Hs) in Hno.
  rewrite !in_app_iff in *.
  intros [H | [H | [H | H]]]; try tauto.
  - destruct (in_insert_after_title _ _ _ _ H) as [H' | H']; [tauto|].
    destruct (in_image_line _ _ H') as [H'' | H'']; [tauto|].
    vm_compute in H''; repeat destruct H'' as [H'' | H'']; discriminate || auto.
  - destruct H as [H | []]; discriminate H.
Qed.

Lemma existsb_firstn_past (f : str -> bool) (p : list str) (x : str)
    (r : list str) (e : nat) :
  f x = true -> (length p < e)%nat ->
  existsb f (firstn e (p ++ x :: r)) = true.
Proof.
  intros Hx; revert e; induction p as [|y p IH]; intros e He.
  - destruct e; [simpl in He; lia|]; simpl; rewrite Hx; reflexivity.
  - destruct e; [simpl in He; lia|].
    cbn [app firstn existsb]; rewrite IH; [apply orb_true_r|].
    simpl in He; lia.
Qed.

(** Lines in which an image field stands before any closing marker are
    left alone. *)
Lemma rewrite_lines_image_present (first : str) (p : list str) (img : str)
    (ls : list str) :
  Forall not_marker p -> is_marker img = false -> is_image img = true ->
  rewrite_lines (first :: p ++ img :: ls) = None.
Proof.
  intros Hp Hm Hi; unfold rewrite_lines, split_frontmatter.
  destruct (negb (startswith (lit "---") (strip first))); [reflexivity|].
  rewrite find_end_idx_skip by assumption.
  cbn [find_end_idx]; rewrite Hm.
  destruct (find_end_idx ls (S (1 + length p))) as [e|] eqn:E; [|reflexivity].
  apply find_end_idx_ge in E.
  change (first :: p ++ img :: ls) with ((first :: p) ++ img :: ls).
  rewrite existsb_firstn_past; auto; simpl; lia.
Qed.

Lemma Forall_middle {T : Type} (Q : T -> Prop) (a : list T) (t : T)
    (b : list T) :
  Forall Q (a ++ t :: b) -> Forall Q (a ++ [t]).
Proof.
  intros H; apply Forall_app in H as [H1 H2].
  apply Forall_app; split; [exact H1|].
  inversion H2; subst; constructor; auto.
Qed.

(** After a run that put the image line in, the lines read back hold an
    image field before any closing marker. *)
Lemma second_run_sees_image (file : str) (fm : list str)
    (closing body : str) :
  split_frontmatter (read_lines file) = Some (fm, closing, body) ->
  existsb is_title fm = true ->
  rewrite_lines
    (read_lines (concat (insert_after_title (image_url body) false fm)
                   ++ closing ++ [LF] ++ body)) = None.
Proof.
  intros Hs Ht.
  unfold read_lines at 1.
  rewrite (universal_newlines_id _ (written_no_CR _ _ _ _ Hs)).
  destruct (front_lines _ _ _ _ Hs)
    as [first [a [rest [-> [-> [_ [H0 [Ha [Hc [Hl _]]]]]]]]]].
  destruct (first_title_split (first :: a))
    as [Hn | [a1 [t [b1 [Hfm [Ha1 Ht1]]]]]]; [congruence|].
  destruct a1 as [|f a1]; simpl in Hfm; inversion Hfm; subst.
  - unfold is_title in Ht1; rewrite (marker_not_title _ H0) in Ht1.
    discriminate Ht1.
  - change (f :: a1 ++ t :: b1) with ((f :: a1) ++ t :: b1).
    rewrite insert_after_title_first by assumption.
    replace ((f :: a1) ++ t :: image_line (image_url (concat rest)) :: b1)
      with (((f :: a1) ++ [t])
              ++ image_line (image_url (concat rest)) :: b1)
      by (rewrite <- app_assoc; reflexivity).
    rewrite concat_app, concat_cons, <- !app_assoc.
    rewrite readlines_lines_app
      by (apply (Forall_middle is_line (f :: a1) t b1); exact Hl).
    unfold image_line; rewrite <- !app_assoc.
    destruct (readlines_head (lit "image: ")
                (image_url (concat rest) ++ [LF] ++ concat b1 ++ closing
                   ++ [LF] ++ concat rest)) as [l [ls ->]].
    + discriminate.
    + vm_compute; intros H; repeat destruct H as [H | H]; discriminate || auto.
    + replace ((f :: a1) ++ [t] ++ (lit "image: " ++ l) :: ls)
        with (f :: (a1 ++ [t]) ++ (lit "image: " ++ l) :: ls)
        by (rewrite <- app_assoc; reflexivity).
      apply (rewrite_lines_image_present f (a1 ++ [t])
               (lit "image: " ++ l) ls);
        [exact (Forall_middle not_marker a1 t b1 Ha)
        | apply image_prefix_line | apply image_prefix_line].
Qed.

(** C1, counterexample.  A document without a title line: no image line is
    put in, so the second run does not find one; each run writes one more
    newline after the closing line and returns [True]. *)
Lemma idempotent_fails :
  let doc := unlines ["---"; "layout: post"; "---"; "text"]%string in
  has_title doc = false
  /\ add_image_to_frontmatter doc
     = (true, unlines ["---"; "layout: post"; "---"; ""; "text"]%string)
  /\ add_image_to_frontmatter
       (unlines ["---"; "layout: post"; "---"; ""; "text"]%string)
     = (true, unlines ["---"; "layout: post"; "---"; ""; ""; "text"]%string)
  /\ ~ idempotent.
Proof.
  repeat split; try (vm_compute; reflexivity).
  intros H.
  specialize (H (unlines ["---"; "layout: post"; "---"; "text"]%string)).
  vm_compute in H; discriminate H.
Qed.

(** C1, amended.  For every document that the first run leaves unchanged
    or whose front matter holds a title line, a second run on the file of
    the first run changes nothing and returns [False]: where the first run
    wrote, the second finds the [image:] field. *)
Theorem second_run_no_change (file : str) :
  negb (fst (add_image_to_frontmatter file)) || has_title file = true ->
  add_image_to_frontmatter (snd (add_image_to_frontmatter file))
  = (false, snd (add_image_to_frontmatter file)).
Proof.
  unfold has_title.
  destruct (split_frontmatter (read_lines file)) as [[[fm closing] body]|]
    eqn:Hs.
  - destruct (existsb is_image fm) eqn:Hi.
    + intros _.
      assert (E : add_image_to_frontmatter file = (false, file)).
      { unfold add_image_to_frontmatter, rewrite_lines.
        rewrite Hs, Hi; reflexivity. }
      rewrite E; exact E.
    + rewrite (processed _ _ _ _ Hs Hi); cbn [fst snd negb orb].
      intros Ht; unfold add_image_to_frontmatter at 1.
      rewrite (second_run_sees_image _ _ _ _ Hs Ht); reflexivity.
  - intros _.
    assert (E : add_image_to_frontmatter file = (false, file)).
    { unfold add_image_to_frontmatter, rewrite_lines.
      rewrite Hs; reflexivity. }
    rewrite E; exact E.
Qed.

Lemma second_run_no_change_witness :
  let doc := unlines ["---"; "title: Hello"; "---"; "![a](/b.png)"]%string in
  add_image_to_frontmatter doc
  = (true, unlines ["---"; "title: Hello"; "image: /b.png"; "---"; "";
                    "![a](/b.png)"]%string)
  /\ add_image_to_frontmatter (snd (add_image_to_frontmatter doc))
     = (false, snd (add_image_to_frontmatter doc)).
Proof.
  split; [vm_compute; reflexivity|].
  apply (second_run_no_change
           (unlines ["---"; "title: Hello"; "---"; "![a](/b.png)"]%string)).
  vm_compute; reflexivity.
Defined.

Lemma not_in_lacks (c : char) (s : str) : ~ In c s -> lacks c s = true.
Proof.
  intros H; unfold lacks; apply forallb_forall; intros d Hd.
  apply negb_true_iff, N.eqb_neq; intros ->; exact (H Hd).
Qed.

Lemma is_line_has_LF (l : str) : is_line l -> lacks LF l = false.
Proof.
  intros [b [-> _]].
  destruct (lacks LF (b ++ [LF])) eqn:E; [|reflexivity].
  exfalso; apply (lacks_not_in _ _ E), in_or_app; right; left; reflexivity.
Qed.

Lemma Forall_insert_after_title (Q : str -> Prop) (url : str)
    (fm : list str) :
  Q (image_line url) -> Forall Q fm ->
  forall b, Forall Q (insert_after_title url b fm).
Proof.
  intros Hq H; induction H as [|l fm Hl _ IH]; intros b; simpl.
  - constructor.
  - destruct (is_title l && negb b); repeat constructor; auto.
Qed.

Lemma image_line_is_line (url : str) :
  lacks LF url = true -> is_line (image_line url).
Proof.
  intros H; exists (lit "image: " ++ url); split.
  - unfold image_line; rewrite <- app_assoc; reflexivity.
  - rewrite in_app_iff; intros [Hin | Hin].
    + vm_compute in Hin; repeat destruct Hin as [Hin | Hin];
        discriminate || auto.
    + exact (lacks_not_in _ _ H Hin).
Qed.

(** The body of a file, as a later run would read it. *)
Lemma body_of_written (first : str) (a : list str) (closing : str)
    (rest : list str) :
  startswith (lit "---") (strip first) = true ->
  Forall not_marker a -> is_marker closing = true ->
  Forall is_line (first :: a) ->
  (is_line closing \/ (~ In LF closing /\ closing <> [] /\ rest = [])) ->
  rest = readlines (concat rest) ->
  split_frontmatter
    (readlines (concat (first :: a) ++ closing ++ [LF] ++ concat rest))
  = Some (first :: a,
          (if lacks LF closing then closing ++ [LF] else closing),
          (if lacks LF closing then [] else LF :: concat rest)).
Proof.
  intros H0 Ha Hc Hl Hcl Hrest.
  rewrite readlines_lines_app by assumption.
  destruct Hcl as [Hcl | [Hno [_ ->]]].
  - rewrite (is_line_has_LF _ Hcl).
    rewrite readlines_line_app by assumption.
    rewrite (readlines_line_app [LF]), <- Hrest
      by (exists []; simpl; auto).
    apply split_frontmatter_shape; assumption.
  - rewrite (not_in_lacks _ _ Hno).
    rewrite (app_assoc closing [LF]).
    rewrite (readlines_line_app (closing ++ [LF]))
      by (exists closing; split; [reflexivity | assumption]).
    apply (split_frontmatter_shape first a (closing ++ [LF]) []); auto.
    unfold is_marker; rewrite strip_app_LF; exact Hc.
Qed.

(** An address taken from an inline reference, and the default, hold no
    newline; only the tag pattern can capture one. *)
Lemma image_url_one_line (body : str) :
  md_img body <> None \/ find_first_image body = None ->
  lacks LF (image_url body) = true.
Proof.
  unfold image_url, find_first_image.
  destruct (md_img body) as [u|] eqn:E.
  - intros _.
    destruct (md_img_inv _ _ E) as [_ [_ [_ [_ [_ Hu]]]]].
    destruct u as [|c u]; [reflexivity|].
    cbn [py_or]; unfold lacks; apply forallb_forall; intros d Hd.
    unfold all in Hu; rewrite Forall_forall in Hu; exact (Hu d Hd).
  - intros [H | H]; [congruence|].
    destruct (html_img body); [discriminate H | reflexivity].
Qed.

(** An address captured by the tag pattern may span lines, and one of them
    may strip to the marker: then the file read back ends its front matter
    there. *)
Example newline_in_address :
  let doc := unlines ["---"; "title: T"; "---"; "<img src='x"; "---";
                      "y'>"]%string in
  image_url (unlines ["<img src='x"; "---"; "y'>"]%string)
  = lit "x" ++ [LF] ++ lit "---" ++ [LF] ++ lit "y"
  /\ body_of (snd (add_image_to_frontmatter doc))
     = Some (unlines ["y"; "---"; ""; "<img src='x"; "---"; "y'>"]%string).
Proof. split; vm_compute; reflexivity. Qed.

(** C4, counterexample.  After the run the closing line is followed by the
    newline that the function writes, then by the old body. *)
Lemma body_kept_fails :
  let doc := unlines ["---"; "title: Hello"; "---"; "text"]%string in
  body_of doc = Some (nl (lit "text"))
  /\ body_of (snd (add_image_to_frontmatter doc)) = Some (LF :: nl (lit "text"))
  /\ ~ body_kept.
Proof.
  repeat split; try (vm_compute; reflexivity).
  intros H.
  specialize (H (unlines ["---"; "title: Hello"; "---"; "text"]%string)
                [nl (lit "---"); nl (lit "title: Hello")]
                (nl (lit "---")) (nl (lit "text")) eq_refl eq_refl).
  vm_compute in H; discriminate H.
Qed.

(** C4, amended.  For a document with front matter and no image field,
    whose resolved image address holds no newline, the body of the file
    after the run is the old body with one newline put before it: the
    newline the function writes after the closing line.  Only when the
    closing line was the last line of the file and had no newline of its own
    (the body being empty) does that newline end the closing line, and the
    body stays empty. *)
Theorem body_after_run (file : str) (fm : list str) (closing body : str) :
  split_frontmatter (read_lines file) = Some (fm, closing, body) ->
  existsb is_image fm = false ->
  lacks LF (image_url body) = true ->
  body_of (snd (add_image_to_frontmatter file))
  = Some (if lacks LF closing then [] else LF :: body)
  /\ (lacks LF closing = true -> body = []).
Proof.
  intros Hs Hi Hurl.
  rewrite (processed _ _ _ _ Hs Hi); cbn [snd].
  unfold body_of, read_lines.
  rewrite (universal_newlines_id _ (written_no_CR _ _ _ _ Hs)).
  destruct (front_lines _ _ _ _ Hs)
    as [first [a [rest [-> [-> [_ [H0 [Ha [Hc [Hl [Hcl Hrest]]]]]]]]]]].
  assert (Hfirst : is_title first = false)
    by (apply marker_not_title; exact H0).
  cbn [insert_after_title]; rewrite Hfirst; cbn [andb].
  assert (Hm : not_marker (image_line (image_url (concat rest))))
    by (unfold image_line; apply image_prefix_line).
  inversion Hl as [|? ? Hl1 Hl2]; subst.
  rewrite body_of_written; auto.
  - split; [reflexivity|].
    intros Hlack; destruct Hcl as [Hcl | [_ [_ ->]]]; [|reflexivity].
    rewrite (is_line_has_LF _ Hcl) in Hlack; discriminate Hlack.
  - apply Forall_insert_after_title; auto.
  - constructor; auto.
    apply Forall_insert_after_title; auto using image_line_is_line.
Qed.

Lemma body_after_run_witness :
  let doc := unlines ["---"; "title: Hello"; "---"; "![a](/b.png)"]%string in
  body_of doc = Some (nl (lit "![a](/b.png)"))
  /\ body_of (snd (add_image_to_frontmatter doc))
     = Some (LF :: nl (lit "![a](/b.png)")).
Proof.
  split; [vm_compute; reflexivity|].
  apply (body_after_run
           (unlines ["---"; "title: Hello"; "---"; "![a](/b.png)"]%string)
           [nl (lit "---"); nl (lit "title: Hello")]
           (nl (lit "---")) (nl (lit "![a](/b.png)")));
    reflexivity.
Defined.

(** ** Further properties of the extractor *)

(** Whatever [find_first_image] returns stands in the text as it is. *)
Theorem find_first_image_occurs (content u : str) :
  find_first_image content = Some u -> contains u content.
Proof.
  unfold find_first_image.
  destruct (md_img content) as [g|] eqn:Emd.
  - intros H; inversion H; subst g.
    destruct (md_img_inv _ _ Emd) as [pre [alt [post [-> _]]]].
    exists (pre ++ lit "![" ++ alt ++ lit "]("), (lit ")" ++ post).
    rewrite <- !app_assoc; reflexivity.
  - destruct (html_img content) as [g|] eqn:Eh; [|discriminate].
    intros H; inversion H; subst g.
    destruct (html_img_inv _ _ Eh) as [pre [at_ [q1 [q2 [post [-> _]]]]]].
    exists (pre ++ lit "<img" ++ at_ ++ lit "src=" ++ [q1]), (q2 :: post).
    rewrite <- !app_assoc; reflexivity.
Qed.

Lemma find_first_image_occurs_witness :
  contains (lit "/a(b") (lit "see ![x](/a(b).png) here").
Proof.
  apply (find_first_image_occurs (lit "see ![x](/a(b).png) here")
           (lit "/a(b")).
  reflexivity.
Defined.

(** The lazy group stops at the first position at which the rest of the
    pattern matches. *)
Lemma re_lazy_star_group_first {A : Type} (P : char -> bool)
    (kg : str -> str -> option A) (s : str) : forall g x,
  re_lazy_star_group P kg g s = Some x ->
  exists a r, s = a ++ r /\ kg (g ++ a) r = Some x
    /\ forall u c v, a = u ++ c :: v -> kg (g ++ u) (c :: v ++ r) = None.
Proof.
  induction s as [|c s IH]; intros g x; simpl.
  - destruct (kg g []) eqn:E; [|discriminate].
    intros H; inversion H; subst; exists [], []; rewrite (app_nil_r g).
    repeat split; auto; intros [|? ?] ? ? Hu; discriminate Hu.
  - destruct (kg g (c :: s)) eqn:E.
    + intros H; inversion H; subst.
      exists [], (c :: s); rewrite (app_nil_r g).
      repeat split; auto; intros [|? ?] ? ? Hu; discriminate Hu.
    + destruct (P c) eqn:Ec; [|discriminate].
      intros H; destruct (IH _ _ H) as [a [r [-> [Hk Hmin]]]].
      exists (c :: a), r; rewrite <- app_assoc in Hk.
      repeat split; auto.
      intros [|d u] c' v Hu; simpl in Hu; inversion Hu; subst.
      * rewrite app_nil_r; exact E.
      * specialize (Hmin u c' v eq_refl).
        rewrite <- app_assoc in Hmin; exact Hmin.
Qed.

(** An address taken from an inline reference follows [](] and is followed
    by [)] in the text, and holds neither a newline nor a closing
    parenthesis: it ends at the first [)] on the line. *)
Theorem inline_address_shape (content u : str) :
  md_img content = Some u ->
  find_first_image content = Some u
  /\ lacks LF u = true /\ lacks 41 u = true
  /\ contains (lit "](" ++ u ++ lit ")") content.
Proof.
  intros H; split; [unfold find_first_image; rewrite H; reflexivity|].
  assert (Hdot : all dot u /\ contains (lit "](" ++ u ++ lit ")") content).
  { destruct (md_img_inv _ _ H) as [pre [alt [post [-> [_ Hu]]]]].
    split; [exact Hu|].
    exists (pre ++ lit "![" ++ alt), post.
    rewrite <- !app_assoc; reflexivity. }
  destruct Hdot as [Hdot Hc]; repeat split; auto.
  - unfold lacks; apply forallb_forall; intros d Hd.
    unfold all in Hdot; rewrite Forall_forall in Hdot; exact (Hdot d Hd).
  - apply not_in_lacks; intros Hin.
    unfold md_img, md_img_at in H.
    destruct (re_search_inv _ _ _ H) as [pre [r1 [-> H1]]].
    destruct (re_lit_inv _ _ _ _ H1) as [r2 [-> H2]].
    destruct (re_lazy_star_inv _ _ _ _ H2) as [alt [r3 [-> [_ H3]]]].
    destruct (re_lit_inv _ _ _ _ H3) as [r4 [-> H4]].
    destruct (re_lazy_star_group_first _ _ _ _ _ H4) as [g [r5 [-> [H5 Hmin]]]].
    destruct (re_lit_inv _ _ _ _ H5) as [post [-> H6]].
    inversion H6; subst u.
    destruct (in_split _ _ Hin) as [u1 [u2 ->]].
    specialize (Hmin u1 41 u2 eq_refl); discriminate Hmin.
Qed.

Lemma inline_address_shape_witness :
  find_first_image (lit "see ![x](/a(b).png) here") = Some (lit "/a(b")
  /\ lacks LF (lit "/a(b") = true /\ lacks 41 (lit "/a(b") = true
  /\ contains (lit "](" ++ lit "/a(b" ++ lit ")")
       (lit "see ![x](/a(b).png) here").
Proof.
  apply (inline_address_shape (lit "see ![x](/a(b).png) here") (lit "/a(b")).
  reflexivity.
Defined.

(** An address taken from a tag is not empty, holds no quote character, and
    stands in the text between [src=] with a quote and a quote; it is
    returned only when the text has no inline reference. *)
Theorem tag_address_shape (content u : str) :
  md_img content = None ->
  html_img content = Some u ->
  find_first_image content = Some u
  /\ u <> [] /\ forallb not_quote u = true
  /\ exists q1 q2, quote q1 = true /\ quote q2 = true
       /\ contains (lit "src=" ++ q1 :: u ++ [q2]) content.
Proof.
  intros Hmd H; split;
    [unfold find_first_image; rewrite Hmd, H; reflexivity|].
  destruct (html_img_inv _ _ H)
    as [pre [at_ [q1 [q2 [post [-> [_ [_ [H1 [H2 [H3 H4]]]]]]]]]]].
  repeat split; auto.
  - apply forallb_forall; intros d Hd.
    unfold all in H4; rewrite Forall_forall in H4; exact (H4 d Hd).
  - exists q1, q2; repeat split; auto.
    exists (pre ++ lit "<img" ++ at_), post.
    rewrite <- !app_assoc; simpl; rewrite <- !app_assoc; reflexivity.
Qed.

Lemma tag_address_shape_witness :
  find_first_image (lit "<img class='c' src='/p.png' alt=''>")
  = Some (lit "/p.png").
Proof.
  apply (tag_address_shape (lit "<img class='c' src='/p.png' alt=''>")
           (lit "/p.png")); reflexivity.
Defined.

Lemma md_img_none (s : str) : ~ contains (lit "![") s -> md_img s = None.
Proof.
  intros H; unfold md_img; apply re_search_none; intros u v ->.
  unfold md_img_at; apply re_lit_fail; intros r ->.
  apply H; exists u, r; reflexivity.
Qed.

(** A text that holds neither [![] nor the lower-case [<img] has no image:
    the extractor returns [None]. *)
Theorem nothing_to_find (content : str) :
  containsb (lit "![") content = false ->
  containsb (lit "<img") content = false ->
  find_first_image content = None.
Proof.
  intros H1 H2; unfold find_first_image.
  rewrite md_img_none, html_img_none; auto using containsb_false.
Qed.

Lemma nothing_to_find_witness :
  find_first_image (lit "a [link](/x.png) and <IMG SRC='/y.png'>") = None.
Proof.
  apply (nothing_to_find (lit "a [link](/x.png) and <IMG SRC='/y.png'>"));
    reflexivity.
Defined.

(** The address the processor resolves is never empty: it is the default or
    a non-empty result of the extractor, so the line put in is never a bare
    [image: ]. *)
Theorem image_url_not_empty (body : str) :
  image_url body <> []
  /\ (image_url body = DEFAULT_IMAGE
      \/ find_first_image body = Some (image_url body))
  /\ image_line (image_url body) <> nl (lit "image: ").
Proof.
  assert (H : image_url body <> []).
  { unfold image_url.
    destruct (find_first_image body) as [[|c u]|]; simpl; discriminate. }
  repeat split; auto.
  - unfold image_url.
    destruct (find_first_image body) as [[|c u]|]; simpl; auto.
  - unfold image_line, nl; intros E.
    apply app_inv_head in E.
    destruct (image_url body) as [|c u]; [congruence|].
    destruct u; discriminate E.
Qed.

(** ** Further properties of the processor *)

(** A file that is empty, or whose first line does not strip to something
    beginning with [---], is left as it is and reported unchanged. *)
Theorem no_opening_marker_untouched (file : str) :
  opens_with_marker file = false ->
  add_image_to_frontmatter file = (false, file).
Proof.
  unfold opens_with_marker, add_image_to_frontmatter, rewrite_lines.
  destruct (read_lines file) as [|first rest]; [reflexivity|].
  intros H; unfold split_frontmatter; rewrite H; reflexivity.
Qed.

Lemma no_opening_marker_untouched_witness :
  add_image_to_frontmatter (unlines ["  "; "---"; "title: T"; "---"]%string)
  = (false, unlines ["  "; "---"; "title: T"; "---"]%string).
Proof.
  apply (no_opening_marker_untouched
           (unlines ["  "; "---"; "title: T"; "---"]%string)).
  reflexivity.
Defined.

Lemma forallb_not_marker (ls : list str) :
  forallb (fun l => negb (is_marker l)) ls = true -> Forall not_marker ls.
Proof.
  intros H; apply Forall_forall; intros l Hl.
  rewrite forallb_forall in H; specialize (H l Hl).
  unfold not_marker; destruct (is_marker l); [discriminate H | reflexivity].
Qed.

Lemma find_end_idx_none (ls : list str) (i : nat) :
  Forall not_marker ls -> find_end_idx ls i = None.
Proof.
  intros H; rewrite <- (app_nil_r ls), find_end_idx_skip by assumption.
  reflexivity.
Qed.

(** A file in which no line after the first strips to exactly [---] has no
    closing marker: it is left as it is and reported unchanged, whatever
    its first line. *)
Theorem no_closing_marker_untouched (file first : str) (rest : list str) :
  read_lines file = first :: rest ->
  forallb (fun l => negb (is_marker l)) rest = true ->
  add_image_to_frontmatter file = (false, file).
Proof.
  intros HL H; unfold add_image_to_frontmatter, rewrite_lines.
  rewrite HL; unfold split_frontmatter.
  rewrite (find_end_idx_none rest 1 (forallb_not_marker _ H)).
  destruct (negb (startswith (lit "---") (strip first))); reflexivity.
Qed.

Lemma no_closing_marker_untouched_witness :
  add_image_to_frontmatter
    (unlines ["---"; "title: T"; "----"; "![a](/b.png)"]%string)
  = (false, unlines ["---"; "title: T"; "----"; "![a](/b.png)"]%string).
Proof.
  apply (no_closing_marker_untouched
           (unlines ["---"; "title: T"; "----"; "![a](/b.png)"]%string)
           (nl (lit "---"))
           [nl (lit "title: T"); nl (lit "----"); nl (lit "![a](/b.png)")]);
    reflexivity.
Defined.

Lemma image_not_marker (l : str) : is_image l = true -> is_marker l = false.
Proof.
  unfold is_image, is_marker; intros H.
  apply startswith_prefix in H as [r ->]; reflexivity.
Qed.

(** A file with a line that strips to something beginning with [image:]
    before any line that strips to [---] (the first line apart) is left as
    it is and reported unchanged, whatever follows that line. *)
Theorem image_field_untouched (file first : str) (p : list str) (img : str)
    (ls : list str) :
  read_lines file = first :: p ++ img :: ls ->
  forallb (fun l => negb (is_marker l)) p = true ->
  is_image img = true ->
  add_image_to_frontmatter file = (false, file).
Proof.
  intros HL Hp Hi; unfold add_image_to_frontmatter; rewrite HL.
  rewrite rewrite_lines_image_present;
    auto using forallb_not_marker, image_not_marker.
Qed.

Lemma image_field_untouched_witness :
  add_image_to_frontmatter
    (unlines ["---"; "title: T"; "  image:"; "---"; "![a](/b.png)"]%string)
  = (false,
     unlines ["---"; "title: T"; "  image:"; "---"; "![a](/b.png)"]%string).
Proof.
  apply (image_field_untouched
           (unlines ["---"; "title: T"; "  image:"; "---";
                     "![a](/b.png)"]%string)
           (nl (lit "---")) [nl (lit "title: T")] (nl (lit "  image:"))
           [nl (lit "---"); nl (lit "![a](/b.png)")]);
    reflexivity.
Defined.

(** The text the function writes holds no carriage return: a file with
    [\r\n] or [\r] line ends that is rewritten gets [\n] line ends
    throughout. *)
Theorem written_text_no_CR (file : str) :
  fst (add_image_to_frontmatter file) = true ->
  lacks CR (snd (add_image_to_frontmatter file)) = true.
Proof.
  unfold add_image_to_frontmatter.
  destruct (rewrite_lines (read_lines file)) as [w|] eqn:E; [|discriminate].
  intros _; cbn [snd]; apply not_in_lacks.
  unfold rewrite_lines in E.
  destruct (split_frontmatter (read_lines file)) as [[[fm closing] body]|]
    eqn:Hs; [|discriminate].
  destruct (existsb is_image fm); [discriminate|].
  inversion E; subst w; rewrite new_frontmatter_eq.
  exact (written_no_CR _ _ _ _ Hs).
Qed.

Lemma written_text_no_CR_witness :
  let doc := lit "---" ++ [CR; LF] ++ lit "title: T" ++ [CR; LF]
               ++ lit "---" ++ [CR] ++ lit "text" in
  add_image_to_frontmatter doc
  = (true,
     unlines ["---"; "title: T";
              "image: /assets/favicon/android-chrome-512x512.png";
              "---"; ""]%string ++ lit "text")
  /\ lacks CR (snd (add_image_to_frontmatter doc)) = true.
Proof.
  split; [vm_compute; reflexivity|].
  apply (written_text_no_CR
           (lit "---" ++ [CR; LF] ++ lit "title: T" ++ [CR; LF]
              ++ lit "---" ++ [CR] ++ lit "text")).
  vm_compute; reflexivity.
Defined.

(** The lines read back from the text that the function writes. *)
Lemma reread (file : str) (fm : list str) (closing body : str) :
  split_frontmatter (read_lines file) = Some (fm, closing, body) ->
  existsb is_title fm = false \/ lacks LF (image_url body) = true ->
  split_frontmatter
    (read_lines (concat (insert_after_title (image_url body) false fm)
                   ++ closing ++ [LF] ++ body))
  = Some (insert_after_title (image_url body) false fm,
          (if lacks LF closing then closing ++ [LF] else closing),
          (if lacks LF closing then [] else LF :: body)).
Proof.
  intros Hs Hcase; unfold read_lines at 1.
  rewrite (universal_newlines_id _ (written_no_CR _ _ _ _ Hs)).
  destruct (front_lines _ _ _ _ Hs)
    as [first [a [rest [-> [-> [_ [H0 [Ha [Hc [Hl [Hcl Hrest]]]]]]]]]]].
  destruct Hcase as [Hnone | Hurl].
  - rewrite insert_after_title_none by assumption.
    apply body_of_written; auto.
  - assert (Hfirst : is_title first = false)
      by (apply marker_not_title; exact H0).
    cbn [insert_after_title]; rewrite Hfirst; cbn [andb].
    assert (Hm : not_marker (image_line (image_url (concat rest))))
      by (unfold image_line; apply image_prefix_line).
    inversion Hl as [|? ? Hl1 Hl2]; subst.
    apply body_of_written; auto.
    + apply Forall_insert_after_title; auto.
    + constructor; auto.
      apply Forall_insert_after_title; auto using image_line_is_line.
Qed.

(** When the resolved address holds no newline, the file that the function
    writes is read back as it was written: the front matter is the new
    front matter line by line, and the closing line is the old one (with the
    written newline as its end if it had none). *)
Theorem header_read_back (file : str) (fm : list str) (closing body : str) :
  split_frontmatter (read_lines file) = Some (fm, closing, body) ->
  existsb is_image fm = false ->
  lacks LF (image_url body) = true ->
  exists body',
    split_frontmatter (read_lines (snd (add_image_to_frontmatter file)))
    = Some (new_frontmatter (image_url body) fm,
            (if lacks LF closing then closing ++ [LF] else closing),
            body').
Proof.
  intros Hs Hi Hurl.
  rewrite (processed _ _ _ _ Hs Hi), new_frontmatter_eq; cbn [snd].
  rewrite (reread _ _ _ _ Hs (or_intror Hurl)); eauto.
Qed.

Lemma header_read_back_witness :
  exists body',
    split_frontmatter
      (read_lines
         (snd (add_image_to_frontmatter
                 (unlines ["---"; "title: T"; "---"]%string
                    ++ lit "![a](/b.png)"))))
    = Some ([nl (lit "---"); nl (lit "title: T"); nl (lit "image: /b.png")],
            nl (lit "---"), body').
Proof.
  apply (header_read_back
           (unlines ["---"; "title: T"; "---"]%string ++ lit "![a](/b.png)")
           [nl (lit "---"); nl (lit "title: T")]
           (nl (lit "---")) (lit "![a](/b.png)"));
    reflexivity.
Defined.

Lemma titleless_invariant (file : str) (fm : list str) (closing body : str) :
  split_frontmatter (read_lines file) = Some (fm, closing, body) ->
  existsb is_image fm = false ->
  existsb is_title fm = false ->
  forall n, exists closing' body',
    split_frontmatter (read_lines (run n file)) = Some (fm, closing', body')
    /\ length (universal_newlines (run n file))
       = (length (universal_newlines file) + n)%nat.
Proof.
  intros Hs Hi Ht; induction n as [|n [c [b [Hn Hlen]]]].
  - exists closing, body; split; [exact Hs | simpl; lia].
  - cbn [run].
    rewrite (processed _ _ _ _ Hn Hi).
    pose proof (reread _ _ _ _ Hn (or_introl Ht)) as Hr.
    pose proof (written_no_CR _ _ _ _ Hn) as Hcr.
    rewrite insert_after_title_none in * by assumption.
    cbn [snd]; eexists; eexists; split; [exact Hr|].
    rewrite (universal_newlines_id _ Hcr).
    rewrite (text_parts _ _ _ _ Hn) in Hlen.
    rewrite !length_app in *; simpl; lia.
Qed.

(** A document with front matter, without image field and without title
    line never settles: every run rewrites it and returns [True], and each
    run makes the file one character longer (the newline written after the
    closing line). *)
Theorem titleless_runs (file : str) (fm : list str) (closing body : str) :
  split_frontmatter (read_lines file) = Some (fm, closing, body) ->
  existsb is_image fm = false ->
  existsb is_title fm = false ->
  forall n,
    fst (add_image_to_frontmatter (run n file)) = true
    /\ length (run (S n) file)
       = (length (universal_newlines file) + S n)%nat.
Proof.
  intros Hs Hi Ht n.
  destruct (titleless_invariant _ _ _ _ Hs Hi Ht n) as [c [b [Hn _]]].
  destruct (titleless_invariant _ _ _ _ Hs Hi Ht (S n)) as [_ [_ [_ Hlen]]].
  split; [rewrite (processed _ _ _ _ Hn Hi); reflexivity|].
  rewrite <- Hlen; cbn [run].
  rewrite (processed _ _ _ _ Hn Hi); cbn [snd].
  rewrite (universal_newlines_id _ (written_no_CR _ _ _ _ Hn)); reflexivity.
Qed.

Lemma titleless_runs_witness :
  let doc := unlines ["---"; "layout: post"; "---"; "text"]%string in
  fst (add_image_to_frontmatter (run 2 doc)) = true
  /\ length (run 3 doc) = (length (universal_newlines doc) + 3)%nat.
Proof.
  apply (titleless_runs
           (unlines ["---"; "layout: post"; "---"; "text"]%string)
           [nl (lit "---"); nl (lit "layout: post")]
           (nl (lit "---")) (nl (lit "text")));
    reflexivity.
Defined.

(** ** The batch driver *)

Lemma str_eqb_refl (s : str) : str_eqb s s = true.
Proof. apply str_eqb_eq; reflexivity. Qed.

Lemma lookup_skip (done : store) (n c : str) (todo : store) :
  Forall (fun e => str_eqb (fst e) n = false) done ->
  lookup n (done ++ (n, c) :: todo) = Some c.
Proof.
  induction 1 as [|[d x] done Hd _ IH]; simpl.
  - rewrite str_eqb_refl; reflexivity.
  - simpl in Hd; rewrite Hd; exact IH.
Qed.

Lemma update_skip (done : store) (n c w : str) (todo : store) :
  Forall (fun e => str_eqb (fst e) n = false) done ->
  update n w (done ++ (n, c) :: todo) = done ++ (n, w) :: todo.
Proof.
  induction 1 as [|[d x] done Hd _ IH]; simpl.
  - rewrite str_eqb_refl; reflexivity.
  - simpl in Hd; rewrite Hd, IH; reflexivity.
Qed.

Lemma distinct_before (done : store) (n c : str) (todo : store) :
  distinct (map fst (done ++ (n, c) :: todo)) = true ->
  Forall (fun e => str_eqb (fst e) n = false) done.
Proof.
  induction done as [|[d x] done IH]; intros H; [constructor|].
  simpl in H; apply andb_true_iff in H as [H1 H2].
  constructor; [|exact (IH H2)].
  apply negb_true_iff in H1.
  rewrite map_app, existsb_app in H1; apply orb_false_iff in H1 as [_ H1].
  simpl in H1; apply orb_false_iff in H1 as [H1 _]; exact H1.
Qed.

(** The loop of [main] over the entries still to come, when the names of the
    directory are pairwise different. *)
Lemma main_loop_spec (todo : store) : forall done changed out,
  distinct (map fst (done ++ todo)) = true ->
  main_loop (glob_md todo) changed out (done ++ todo)
  = Some ((changed + length (filter rewritten todo))%nat,
          out ++ map (fun e => updated_line (fst e)) (filter rewritten todo),
          done ++ map entry_after todo).
Proof.
  induction todo as [|[n c] todo IH]; intros done changed out Hd.
  - simpl; rewrite !app_nil_r, Nat.add_0_r; reflexivity.
  - pose proof (distinct_before _ _ _ _ Hd) as Hfresh.
    unfold glob_md, rewritten, entry_after in *.
    cbn [map filter fst snd].
    destruct (endswith (lit ".md") n) eqn:En; cbn [andb].
    + cbn [main_loop]; unfold add_image_to_frontmatter_at.
      rewrite (lookup_skip _ _ _ _ Hfresh).
      unfold add_image_to_frontmatter.
      destruct (rewrite_lines (read_lines c)) as [w|] eqn:Ew; cbn [fst snd].
      * rewrite (update_skip _ _ _ _ _ Hfresh).
        replace (done ++ (n, w) :: todo) with ((done ++ [(n, w)]) ++ todo)
          by (rewrite <- app_assoc; reflexivity).
        rewrite IH.
        -- cbn [map length fst]; rewrite <- !app_assoc, Nat.add_succ_r.
           reflexivity.
        -- rewrite <- app_assoc; cbn [app].
           rewrite map_app in *; exact Hd.
      * replace (done ++ (n, c) :: todo) with ((done ++ [(n, c)]) ++ todo)
          by (rewrite <- app_assoc; reflexivity).
        rewrite IH; [rewrite <- !app_assoc; reflexivity|].
        rewrite <- app_assoc; exact Hd.
    + replace (done ++ (n, c) :: todo) with ((done ++ [(n, c)]) ++ todo)
        by (rewrite <- app_assoc; reflexivity).
      rewrite IH; [rewrite <- !app_assoc; reflexivity|].
      rewrite <- app_assoc; exact Hd.
Qed.

Lemma main_eq (fs : store) :
  distinct (map fst fs) = true ->
  main fs
  = Some (map (fun e => updated_line (fst e)) (filter rewritten fs)
            ++ [done_line (length (filter rewritten fs))],
          map entry_after fs).
Proof.
  intros Hd; unfold main.
  pose proof (main_loop_spec fs [] 0 [] Hd) as H; cbn [app] in H.
  rewrite H; reflexivity.
Qed.

(** Over a directory of readable files whose names are pairwise different,
    the lines that [main] prints are one line [Updated: _posts/<name>] for
    each [.md] file on which the function returns [True], in enumeration
    order, and then the line [Done. <n> files updated.] with their
    number. *)
Theorem main_report (fs : store) :
  distinct (map fst fs) = true ->
  exists fs',
    main fs
    = Some (map (fun e => updated_line (fst e)) (filter rewritten fs)
              ++ [done_line (length (filter rewritten fs))], fs').
Proof. intros Hd; rewrite (main_eq fs Hd); eauto. Qed.

Lemma main_report_witness :
  exists fs',
    main [(lit "a.md", unlines ["---"; "title: A"; "---"; "text"]%string);
          (lit "notes.txt", unlines ["---"; "title: N"; "---"]%string);
          (lit "b.md", unlines ["no front matter"]%string);
          (lit "c.md", unlines ["---"; "tags: x"; "---"]%string)]
    = Some ([lit "Updated: _posts/a.md"; lit "Updated: _posts/c.md";
             lit "Done. 2 files updated."], fs').
Proof.
  apply (main_report
           [(lit "a.md", unlines ["---"; "title: A"; "---"; "text"]%string);
            (lit "notes.txt", unlines ["---"; "title: N"; "---"]%string);
            (lit "b.md", unlines ["no front matter"]%string);
            (lit "c.md", unlines ["---"; "tags: x"; "---"]%string)]).
  reflexivity.
Defined.

(** After [main] the directory has the same names in the same order; a file
    whose name does not end in [.md] has its old content, and every [.md]
    file has the content that the function leaves for it (its old content
    where the function returns [False]). *)
Theorem main_store (fs : store) :
  distinct (map fst fs) = true ->
  exists out,
    main fs = Some (out, map entry_after fs)
    /\ map fst (map entry_after fs) = map fst fs
    /\ forall e, In e fs -> rewritten e = false -> entry_after e = e.
Proof.
  intros Hd; rewrite (main_eq fs Hd); eexists; split; [reflexivity|].
  split.
  - rewrite map_map; apply map_ext; intros [n c].
    unfold entry_after; destruct (endswith (lit ".md") (fst (n, c)));
      reflexivity.
  - intros [n c] _; unfold rewritten, entry_after; cbn [fst snd].
    destruct (endswith (lit ".md") n); [|reflexivity].
    unfold add_image_to_frontmatter.
    destruct (rewrite_lines (read_lines c)); [discriminate | reflexivity].
Qed.

Lemma main_store_witness :
  exists out,
    main [(lit "a.md", unlines ["---"; "title: A"; "---"; "text"]%string);
          (lit "notes.txt", unlines ["---"; "title: N"; "---"]%string);
          (lit "b.md", unlines ["no front matter"]%string)]
    = Some (out,
            [(lit "a.md",
              unlines ["---"; "title: A";
                       "image: /assets/favicon/android-chrome-512x512.png";
                       "---"; ""; "text"]%string);
             (lit "notes.txt", unlines ["---"; "title: N"; "---"]%string);
             (lit "b.md", unlines ["no front matter"]%string)]).
Proof.
  destruct (main_store
              [(lit "a.md", unlines ["---"; "title: A"; "---"; "text"]%string);
               (lit "notes.txt", unlines ["---"; "title: N"; "---"]%string);
               (lit "b.md", unlines ["no front matter"]%string)]
              eq_refl) as [out [H _]].
  exists out; exact H.
Defined.

(** A second run of the function on the file of the first, for a file that
    the first run left alone or that has a title line. *)
Lemma rerun_fixed (file : str) :
  negb (fst (add_image_to_frontmatter file)) || has_title file = true ->
  rewrite_lines (read_lines (snd (add_image_to_frontmatter file))) = None.
Proof.
  unfold has_title, add_image_to_frontmatter.
  destruct (rewrite_lines (read_lines file)) as [w|] eqn:E; cbn [fst snd].
  - unfold rewrite_lines in E.
    destruct (split_frontmatter (read_lines file)) as [[[fm closing] body]|]
      eqn:Hs; [|discriminate].
    destruct (existsb is_image fm); [discriminate|].
    inversion E; subst w; rewrite new_frontmatter_eq.
    cbn [negb orb]; intros Ht.
    exact (second_run_sees_image _ _ _ _ Hs Ht).
  - intros _; exact E.
Qed.

(** When every [.md] file that the function rewrites has a title line, a
    second run of [main] over the directory left by the first prints only
    [Done. 0 files updated.] and leaves every file as it is. *)
Theorem main_second_run (fs : store) :
  distinct (map fst fs) = true ->
  forallb settled fs = true ->
  main (map entry_after fs)
  = Some ([lit "Done. 0 files updated."], map entry_after fs).
Proof.
  intros Hd Hs.
  assert (Hnames : map fst (map entry_after fs) = map fst fs).
  { rewrite map_map; apply map_ext; intros [n c].
    unfold entry_after; destruct (endswith (lit ".md") (fst (n, c)));
      reflexivity. }
  rewrite main_eq by (rewrite Hnames; exact Hd).
  assert (Hfix : forall e, In e fs ->
            rewritten (entry_after e) = false
            /\ entry_after (entry_after e) = entry_after e).
  { intros [n c] Hin.
    rewrite forallb_forall in Hs; specialize (Hs _ Hin).
    unfold settled, rewritten, entry_after in *; cbn [fst snd] in *.
    destruct (endswith (lit ".md") n) eqn:En; cbn [fst snd negb orb] in *.
    - rewrite En; cbn [andb].
      pose proof (rerun_fixed c Hs) as Hr.
      unfold add_image_to_frontmatter at 1 3.
      rewrite Hr; auto.
    - rewrite En; auto. }
  assert (Hf : filter rewritten (map entry_after fs) = []).
  { clear - Hfix; induction fs as [|e fs IH]; [reflexivity|].
    simpl; destruct (Hfix e (or_introl eq_refl)) as [-> _].
    apply IH; intros e' He'; apply Hfix; right; exact He'. }
  assert (Hm : map entry_after (map entry_after fs) = map entry_after fs).
  { clear - Hfix; induction fs as [|e fs IH]; [reflexivity|].
    simpl; destruct (Hfix e (or_introl eq_refl)) as [_ ->].
    f_equal; apply IH; intros e' He'; apply Hfix; right; exact He'. }
  rewrite Hf, Hm; reflexivity.
Qed.

Lemma main_second_run_witness :
  let fs := [(lit "a.md", unlines ["---"; "title: A"; "---"; "text"]%string);
             (lit "notes.txt", unlines ["---"; "tags: x"; "---"]%string);
             (lit "b.md", unlines ["no front matter"]%string)] in
  main (map entry_after fs)
  = Some ([lit "Done. 0 files updated."], map entry_after fs).
Proof.
  apply (main_second_run
           [(lit "a.md", unlines ["---"; "title: A"; "---"; "text"]%string);
            (lit "notes.txt", unlines ["---"; "tags: x"; "---"]%string);
            (lit "b.md", unlines ["no front matter"]%string)]);
    reflexivity.
Defined.

(** ** The first inline reference *)

Lemma re_search_first {A : Type} (m : str -> option A) (s : str) (x : A) :
  re_search m s = Some x ->
  exists pre r, s = pre ++ r /\ m r = Some x
    /\ forall u c v, pre = u ++ c :: v -> m (c :: v ++ r) = None.
Proof.
  induction s as [|c s IH]; simpl.
  - destruct (m []) eqn:E; [|discriminate].
    intros H; inversion H; subst; exists [], []; repeat split; auto.
    intros [|? ?] ? ? Hu; discriminate Hu.
  - destruct (m (c :: s)) eqn:E.
    + intros H; inversion H; subst; exists [], (c :: s); repeat split; auto.
      intros [|? ?] ? ? Hu; discriminate Hu.
    + intros H; destruct (IH H) as [pre [r [-> [Hm Hmin]]]].
      exists (c :: pre), r; repeat split; auto.
      intros [|d u] c' v Hu; simpl in Hu; inversion Hu; subst.
      * exact E.
      * exact (Hmin u c' v eq_refl).
Qed.

Lemma re_lazy_star_first {A : Type} (P : char -> bool)
    (k : str -> option A) (s : str) (x : A) :
  re_lazy_star P k s = Some x ->
  exists a r, s = a ++ r /\ all P a /\ k r = Some x
    /\ forall u c v, a = u ++ c :: v -> k (c :: v ++ r) = None.
Proof.
  induction s as [|c s IH]; simpl.
  - destruct (k []) eqn:E; [|discriminate].
    intros H; inversion H; subst; exists [], []; repeat split; auto.
    + constructor.
    + intros [|? ?] ? ? Hu; discriminate Hu.
  - destruct (k (c :: s)) eqn:E.
    + intros H; inversion H; subst; exists [], (c :: s); repeat split; auto.
      * constructor.
      * intros [|? ?] ? ? Hu; discriminate Hu.
    + destruct (P c) eqn:Ec; [|discriminate].
      intros H; destruct (IH H) as [a [r [-> [Ha [Hk Hmin]]]]].
      exists (c :: a), r; repeat split; auto.
      * constructor; auto.
      * intros [|d u] c' v Hu; simpl in Hu; inversion Hu; subst.
        -- exact E.
        -- exact (Hmin u c' v eq_refl).
Qed.

Lemma re_lazy_star_group_first_all {A : Type} (P : char -> bool)
    (kg : str -> str -> option A) (s : str) : forall g x,
  re_lazy_star_group P kg g s = Some x ->
  exists a r, s = a ++ r /\ all P a /\ kg (g ++ a) r = Some x
    /\ forall u c v, a = u ++ c :: v -> kg (g ++ u) (c :: v ++ r) = None.
Proof.
  induction s as [|c s IH]; intros g x; simpl.
  - destruct (kg g []) eqn:E; [|discriminate].
    intros H; inversion H; subst; exists [], []; rewrite (app_nil_r g).
    repeat split; auto; [constructor|].
    intros [|? ?] ? ? Hu; discriminate Hu.
  - destruct (kg g (c :: s)) eqn:E.
    + intros H; inversion H; subst.
      exists [], (c :: s); rewrite (app_nil_r g).
      repeat split; auto; [constructor|].
      intros [|? ?] ? ? Hu; discriminate Hu.
    + destruct (P c) eqn:Ec; [|discriminate].
      intros H; destruct (IH _ _ H) as [a [r [-> [Ha [Hk Hmin]]]]].
      exists (c :: a), r; rewrite <- app_assoc in Hk.
      repeat split; auto; [constructor; auto|].
      intros [|d u] c' v Hu; simpl in Hu; inversion Hu; subst.
      * rewrite app_nil_r; exact E.
      * specialize (Hmin u c' v eq_refl).
        rewrite <- app_assoc in Hmin; exact Hmin.
Qed.

(** Where a continuation can succeed after a run of the class, the search,
    the lazy star and the lazy group succeed (at that point or before). *)
Lemma re_search_some {A : Type} (m : str -> option A) (pre r : str) (x : A) :
  m r = Some x -> exists y, re_search m (pre ++ r) = Some y.
Proof.
  intros H; induction pre as [|c pre IH]; simpl.
  - exists x; apply re_search_here; exact H.
  - destruct (m (c :: pre ++ r)) as [y|]; [exists y; reflexivity | exact IH].
Qed.

Lemma re_lazy_star_some {A : Type} (P : char -> bool) (k : str -> option A)
    (a r : str) (x : A) :
  all P a -> k r = Some x -> exists y, re_lazy_star P k (a ++ r) = Some y.
Proof.
  intros Ha H; induction Ha as [|c a Hc _ IH].
  - exists x; apply re_lazy_star_here; exact H.
  - change ((c :: a) ++ r) with (c :: a ++ r); cbn [re_lazy_star].
    destruct (k (c :: a ++ r)) as [y|]; [exists y; reflexivity|].
    rewrite Hc; exact IH.
Qed.

Lemma re_lazy_star_group_some {A : Type} (P : char -> bool)
    (kg : str -> str -> option A) (a r : str) :
  all P a -> (forall g, exists x, kg g r = Some x) ->
  forall g, exists y, re_lazy_star_group P kg g (a ++ r) = Some y.
Proof.
  intros Ha H; induction Ha as [|c a Hc _ IH]; intros g.
  - destruct (H g) as [x Hx]; exists x.
    apply re_lazy_star_group_here; exact Hx.
  - change ((c :: a) ++ r) with (c :: a ++ r); cbn [re_lazy_star_group].
    destruct (kg g (c :: a ++ r)) as [y|]; [exists y; reflexivity|].
    rewrite Hc; apply IH.
Qed.

Lemma md_close_some (url post : str) :
  all dot url ->
  exists y, md_close (lit "](" ++ url ++ lit ")" ++ post) = Some y.
Proof.
  intros Hurl; unfold md_close; rewrite re_lit_app.
  apply re_lazy_star_group_some; [exact Hurl|].
  intros g; exists g; rewrite re_lit_app; reflexivity.
Qed.

Lemma md_img_at_some (alt url post : str) :
  all dot alt -> all dot url ->
  exists y,
    md_img_at (lit "![" ++ alt ++ lit "](" ++ url ++ lit ")" ++ post)
    = Some y.
Proof.
  intros Halt Hurl.
  change md_img_at with (re_lit (lit "![") (re_lazy_star dot md_close)).
  rewrite re_lit_app.
  destruct (md_close_some url post Hurl) as [y Hy].
  exact (re_lazy_star_some dot md_close alt _ y Halt Hy).
Qed.

(** Two ways to cut one text: the cuts coincide, or one part is longer by a
    non-empty piece. *)
Lemma cut_cases (a x b y : str) :
  a ++ x = b ++ y ->
  (a = b /\ x = y)
  \/ (exists c v, a = b ++ c :: v /\ y = c :: v ++ x)
  \/ (exists c v, b = a ++ c :: v /\ x = c :: v ++ y).
Proof.
  intros H; apply app_eq_app in H as [l [[-> ->] | [-> ->]]];
    destruct l as [|c v].
  - left; rewrite app_nil_r; auto.
  - right; left; exists c, v; auto.
  - left; rewrite app_nil_r; auto.
  - right; right; exists c, v; auto.
Qed.

(** What the inline pattern returns is the address of the first inline
    reference of the text: no reference starts further left, none at the
    same place has a shorter text in brackets, and the address runs to the
    first closing parenthesis. *)
Lemma md_img_first (content u : str) :
  md_img content = Some u ->
  exists pre1 alt1 post1,
    inline_ref content pre1 alt1 u post1
    /\ lacks 41 u = true
    /\ forall pre2 alt2 url2 post2,
         inline_ref content pre2 alt2 url2 post2 ->
         (length pre1 < length pre2)%nat
         \/ (pre2 = pre1
             /\ ((length alt1 < length alt2)%nat
                 \/ (alt2 = alt1 /\ (length u <= length url2)%nat))).
Proof.
  unfold md_img; intros H.
  change md_img_at with (re_lit (lit "![") (re_lazy_star dot md_close)) in H.
  destruct (re_search_first _ _ _ H) as [pre1 [r1 [-> [H1 Hmin1]]]].
  destruct (re_lit_inv _ _ _ _ H1) as [r2 [-> H2]].
  destruct (re_lazy_star_first _ _ _ _ H2) as [alt1 [r3 [-> [Halt [H3 Hmin2]]]]].
  unfold md_close in H3.
  destruct (re_lit_inv _ _ _ _ H3) as [r4 [-> H4]].
  destruct (re_lazy_star_group_first_all _ _ _ _ _ H4)
    as [g [r5 [-> [Hg [H5 Hmin3]]]]].
  destruct (re_lit_inv _ _ _ _ H5) as [post1 [-> H6]].
  inversion H6; subst u; clear H6.
  assert (Hparen : ~ In 41 g).
  { intros Hin; destruct (in_split _ _ Hin) as [u1 [u2 ->]].
    specialize (Hmin3 u1 41 u2 eq_refl); discriminate Hmin3. }
  assert (Hb : forall s, all dot s -> forallb dot s = true).
  { intros s Hs; apply forallb_forall.
    unfold all in Hs; rewrite Forall_forall in Hs; exact Hs. }
  exists pre1, alt1, post1; split; [|split].
  - repeat split; auto.
  - apply not_in_lacks; exact Hparen.
  - intros pre2 alt2 url2 post2 [Hc [Halt2 Hurl2]].
    apply forallb_all in Halt2; apply forallb_all in Hurl2.
    destruct (cut_cases _ _ _ _ Hc) as [[-> Hx] | [[c [v [-> Hy]]] | [c [v [-> _]]]]].
    + right; split; [reflexivity|].
      apply app_inv_head in Hx.
      destruct (cut_cases _ _ _ _ Hx)
        as [[-> Hx2] | [[c [v [-> Hy]]] | [c [v [-> _]]]]].
      * right; split; [reflexivity|].
        apply app_inv_head in Hx2.
        destruct (cut_cases _ _ _ _ Hx2)
          as [[-> _] | [[c [v [-> Hy]]] | [c [v [-> _]]]]].
        -- apply Nat.le_refl.
        -- exfalso; apply Hparen.
           inversion Hy; subst c.
           apply in_or_app; right; left; reflexivity.
        -- rewrite length_app; apply Nat.le_add_r.
      * exfalso.
        destruct (md_close_some url2 post2 Hurl2) as [y Hsome].
        specialize (Hmin2 alt2 c v eq_refl).
        rewrite Hy in Hsome.
        rewrite Hsome in Hmin2; discriminate Hmin2.
      * left; rewrite length_app; simpl; lia.
    + exfalso.
      destruct (md_img_at_some alt2 url2 post2 Halt2 Hurl2) as [y Hsome].
      specialize (Hmin1 pre2 c v eq_refl).
      change md_img_at
        with (re_lit (lit "![") (re_lazy_star dot md_close)) in Hsome.
      rewrite Hy in Hsome; rewrite Hsome in Hmin1; discriminate Hmin1.
    + left; rewrite length_app; simpl; lia.
Qed.

(** C6, counterexample.  The text in brackets runs over two lines, so the
    inline pattern does not match, and the address of the tag that follows
    is returned. *)
Lemma inline_precedence_fails :
  find_first_image
    (lit "![a" ++ [LF] ++ lit "b](/u.png) and <img src='/e.png'>")
  = Some (lit "/e.png")
  /\ ~ inline_precedence.
Proof.
  split; [reflexivity|].
  intros H.
  specialize (H [] (lit "a" ++ [LF] ++ lit "b") (lit "/u.png")
                (lit " and <img src='/e.png'>") eq_refl eq_refl eq_refl).
  vm_compute in H; discriminate H.
Qed.

(** C6, amended.  For every text that holds an inline reference
    [![alt](url)] with [alt] and [url] each on one line, the extractor
    returns the address of the first such reference (the one that starts
    leftmost, with the shortest text in brackets, its address running to the
    first closing parenthesis), whatever tags the text holds and wherever
    they stand. *)
Theorem first_inline_reference (content pre alt url post : str) :
  content = pre ++ lit "![" ++ alt ++ lit "](" ++ url ++ lit ")" ++ post ->
  forallb dot alt = true -> forallb dot url = true ->
  exists pre1 alt1 url1 post1,
    find_first_image content = Some url1
    /\ inline_ref content pre1 alt1 url1 post1
    /\ lacks 41 url1 = true
    /\ forall pre2 alt2 url2 post2,
         inline_ref content pre2 alt2 url2 post2 ->
         (length pre1 < length pre2)%nat
         \/ (pre2 = pre1
             /\ ((length alt1 < length alt2)%nat
                 \/ (alt2 = alt1 /\ (length url1 <= length url2)%nat))).
Proof.
  intros Hc Halt Hurl.
  destruct (md_img_at_some alt url post (forallb_all _ _ Halt)
              (forallb_all _ _ Hurl)) as [y Hy].
  destruct (re_search_some md_img_at pre _ y Hy) as [u Hu].
  rewrite <- Hc in Hu; fold (md_img content) in Hu.
  destruct (md_img_first _ _ Hu) as [pre1 [alt1 [post1 [H1 [H2 H3]]]]].
  exists pre1, alt1, u, post1.
  split; [unfold find_first_image; rewrite Hu; reflexivity | auto].
Qed.

Lemma first_inline_reference_witness :
  let content :=
    lit "a ![ b" ++ [LF] ++ lit "<img src='/e.png'>" ++ [LF]
      ++ lit "![alt](/u.png) and ![two](/v.png)" in
  find_first_image content = Some (lit "/u.png")
  /\ exists pre1 alt1 url1 post1,
       find_first_image content = Some url1
       /\ inline_ref content pre1 alt1 url1 post1
       /\ lacks 41 url1 = true
       /\ forall pre2 alt2 url2 post2,
            inline_ref content pre2 alt2 url2 post2 ->
            (length pre1 < length pre2)%nat
            \/ (pre2 = pre1
                /\ ((length alt1 < length alt2)%nat
                    \/ (alt2 = alt1 /\ (length url1 <= length url2)%nat))).
Proof.
  split; [reflexivity|].
  apply (first_inline_reference
           (lit "a ![ b" ++ [LF] ++ lit "<img src='/e.png'>" ++ [LF]
              ++ lit "![alt](/u.png) and ![two](/v.png)")
           (lit "a ![ b" ++ [LF] ++ lit "<img src='/e.png'>" ++ [LF])
           (lit "alt") (lit "/u.png") (lit " and ![two](/v.png)"));
    reflexivity.
Defined.
